(** * Verification of the Firestore value codec and structured-query builder
      of [src/js/service-worker.js]

    The development is a shallow embedding of the JavaScript source:

    - [Number] models the ECMAScript built-ins the codec calls on numbers
      ([Number.isInteger], [Number.prototype.toString], [parseInt],
      [parseFloat]);
    - [Value] is the type of native JavaScript values, [Field] the type of
      Firestore wire values (JSON objects with optional tag properties);
    - [createField], [parseField], [parseMap] are the three codec functions
      of the [firestore] object;
    - [getDocumentsForIds], [getDocument] and [getDocuments] are the
      decoding of the three kinds of response, and [Document], [MetaSet],
      [CustomCollection] and [VocabSet] the classes whose static methods
      wrap the three fetch functions;
    - [QueryBuilder] is the builder class; since its methods mutate the
      object held in [this.query], and [build()] hands that very object out,
      the class is modelled over an explicit store of objects.

    The definitions come first.  The proofs follow: printing and reading of
    numbers, decoding of well-formed wire values, the round trip on the
    values that survive it, the theorems on the codec, the representation
    invariant of the builder, and the theorems on the builder; then what
    decoding returns and when it throws, the decoding of the specification
    against the one of the code, what encoding builds, encoding on objects
    that contain themselves, the properties of fetched documents and of the
    instances built from them, and the independence of builders. *)

From Stdlib Require Import ZArith Ascii String Lia.
From Stdlib Require Import DecimalString DecimalFacts DecimalPos DecimalN.
From stdpp Require Import gmap strings list fin_maps.

Set Warnings "-register-all".

Local Open Scope string_scope.
Local Open Scope list_scope.

(** ** Strings

    JavaScript strings are modelled by [string].  The helpers below are the
    pieces of the string built-ins that the source relies on. *)

Module Str.

(** The digits [0-9]. *)
Definition is_digit (c : ascii) : bool :=
  let n := Ascii.N_of_ascii c in ((48 <=? n) && (n <=? 57))%N.

(** [StrWhiteSpaceChar] restricted to ASCII: TAB, LF, VT, FF, CR, SP. *)
Definition is_white_space (c : ascii) : bool :=
  let n := Ascii.N_of_ascii c in
  (((9 <=? n) && (n <=? 13)) || (n =? 32))%N.

(** [TrimString(s, start)]. *)
Fixpoint trim_start (s : string) : string :=
  match s with
  | String c rest => if is_white_space c then trim_start rest else s
  | EmptyString => s
  end.

(** The longest prefix of [s] made of characters satisfying [p], and the
    rest of [s]. *)
Fixpoint span (p : ascii → bool) (s : string) : string * string :=
  match s with
  | String c rest =>
      if p c then let '(a, b) := span p rest in (String c a, b)
      else (EmptyString, s)
  | EmptyString => (EmptyString, EmptyString)
  end.

(** [n] copies of the character ['0']. *)
Fixpoint zeros (n : nat) : string :=
  match n with
  | O => EmptyString
  | S n => String "0" (zeros n)
  end.

(** The first [n] characters of [s], and what follows them. *)
Fixpoint take (n : nat) (s : string) : string :=
  match n, s with
  | S n, String c rest => String c (take n rest)
  | _, _ => EmptyString
  end.

Fixpoint drop (n : nat) (s : string) : string :=
  match n, s with
  | S n, String c rest => drop n rest
  | _, _ => s
  end.

(** [s] without its trailing ['0'] characters, and how many there were. *)
Fixpoint trim_zeros (s : string) : string * nat :=
  match s with
  | EmptyString => (EmptyString, O)
  | String c rest =>
      match trim_zeros rest with
      | (EmptyString, n) =>
          if Ascii.eqb c "0" then (EmptyString, S n)
          else (String c EmptyString, n)
      | (kept, n) => (String c kept, n)
      end
  end.

(** [s.split(sep).pop()] for a one-character separator: the part of [s]
    after the last occurrence of [sep] (all of [s] when there is none). *)
Fixpoint last_segment_from (sep : ascii) (s : string) (acc : string) : string :=
  match s with
  | EmptyString => acc
  | String c rest =>
      if Ascii.eqb c sep then last_segment_from sep rest EmptyString
      else last_segment_from sep rest (acc +:+ String c EmptyString)
  end.

Definition last_segment (sep : ascii) (s : string) : string :=
  last_segment_from sep s EmptyString.

End Str.

(** ** Numbers

    A JavaScript number is NaN, an infinity, or a finite value.  A finite
    value is kept as the decimal [(-1)^negative * s * 10^e]; this is the
    triple from which [Number::toString] (ECMA-262, 6.1.6.1.20) prints a
    number.  Rounding to binary64 is not part of the model. *)

Module Number.

Inductive number :=
| NaN
| Infinity (negative : bool)
| Finite (negative : bool) (s : N) (e : Z).

(** Decimal digits of a natural number, most significant first. *)
Definition digits (n : N) : string := NilZero.string_of_uint (N.to_uint n).

(** Value of a string of decimal digits. *)
Definition of_digits (ds : string) : N :=
  match NilZero.uint_of_string ds with
  | Some u => N.of_uint u
  | None => 0%N
  end.

(** The significant digits of [s] (no trailing zero) and the matching
    exponent: [s * 10^e = of_digits ds * 10^e']. *)
Definition significand (s : N) (e : Z) : string * Z :=
  let '(ds, zeros) := Str.trim_zeros (digits s) in
  (ds, (e + Z.of_nat zeros)%Z).

(** The finite number [(-1)^negative * s * 10^e] in canonical form: [s] has no
    trailing zero, and zero has exponent 0. *)
Definition finite (negative : bool) (s : N) (e : Z) : number :=
  if (s =? 0)%N then Finite negative 0 0
  else let '(ds, e') := significand s e in Finite negative (of_digits ds) e'.

Definition of_Z (z : Z) : number := finite (z <? 0)%Z (Z.abs_N z) 0.

(** [Number.isInteger], on a number: finite, and without fractional part. *)
Definition isInteger (x : number) : bool :=
  match x with
  | Finite _ s e =>
      (0 <=? e)%Z || (s mod 10 ^ Z.to_N (- e) =? 0)%N
  | _ => false
  end.

(** [ToBoolean] of a number. *)
Definition truthy (x : number) : bool :=
  match x with
  | NaN => false
  | Infinity _ => true
  | Finite _ s _ => negb (s =? 0)%N
  end.

(** The decimal with significant digits [ds] and exponent [e], that is
    [0.ds * 10^n] for [n = e + k] where [k] is the number of digits, as
    [Number::toString] prints it (ECMA-262, 6.1.6.1.20, steps 6-10). *)
Definition print_decimal (ds : string) (e : Z) : string :=
  let k := Z.of_nat (String.length ds) in
  let n := (e + k)%Z in
  let exponent :=
    (if (n - 1 <? 0)%Z then "-" else "+") +:+ digits (Z.abs_N (n - 1)) in
  if (k <=? n)%Z && (n <=? 21)%Z then
    ds +:+ Str.zeros (Z.to_nat (n - k))
  else if (0 <? n)%Z && (n <=? 21)%Z then
    Str.take (Z.to_nat n) ds +:+ "." +:+ Str.drop (Z.to_nat n) ds
  else if (-6 <? n)%Z && (n <=? 0)%Z then
    "0." +:+ Str.zeros (Z.to_nat (- n)) +:+ ds
  else if (k =? 1)%Z then
    ds +:+ "e" +:+ exponent
  else
    Str.take 1 ds +:+ "." +:+ Str.drop 1 ds +:+ "e" +:+ exponent.

(** [Number.prototype.toString()] with the default radix 10
    (ECMA-262, Number::toString, steps 1-5, then [print_decimal]). *)
Definition toString (x : number) : string :=
  match x with
  | NaN => "NaN"
  | Infinity negative => (if negative then "-" else EmptyString) +:+ "Infinity"
  | Finite negative s e =>
      if (s =? 0)%N then "0"
      else
        let '(ds, e') := significand s e in
        (if negative then "-" else EmptyString) +:+ print_decimal ds e'
  end.

(** Value of a digit in radix 10 or 16. *)
Definition digit_value (radix : N) (c : ascii) : option N :=
  let n := Ascii.N_of_ascii c in
  if ((48 <=? n) && (n <=? 57))%N then Some (n - 48)%N
  else if (radix =? 16)%N && (97 <=? n)%N && (n <=? 102)%N then Some (n - 87)%N
  else if (radix =? 16)%N && (65 <=? n)%N && (n <=? 70)%N then Some (n - 55)%N
  else None.

(** Value of the longest prefix of [s] made of radix-[radix] digits; [acc] is
    the value read so far, [None] while no digit has been read. *)
Fixpoint parse_digits (radix : N) (s : string) (acc : option N) : option N :=
  match s with
  | String c rest =>
      match digit_value radix c with
      | Some d => parse_digits radix rest (Some (radix * default 0 acc + d))%N
      | None => acc
      end
  | EmptyString => acc
  end.

(** [parseInt(string)] without a radix argument (ECMA-262, 19.2.5). *)
Definition parseInt (input : string) : number :=
  let s := Str.trim_start input in
  let '(negative, s) :=
    match s with
    | String "-" rest => (true, rest)
    | String "+" rest => (false, rest)
    | _ => (false, s)
    end in
  let '(radix, s) :=
    match s with
    | String "0" (String "x" rest) | String "0" (String "X" rest) => (16, rest)
    | _ => (10, s)
    end%N in
  match parse_digits radix s None with
  | Some z => finite negative z 0
  | None => NaN
  end.

(** The [ExponentPart] at the start of [s], if there is one: [e] or [E], an
    optional sign, and at least one digit. *)
Definition exponent_part (s : string) : Z :=
  match s with
  | String c rest =>
      if Ascii.eqb c "e" || Ascii.eqb c "E" then
        let '(negative, rest) :=
          match rest with
          | String "-" r => (true, r)
          | String "+" r => (false, r)
          | _ => (false, rest)
          end in
        let '(ds, _) := Str.span Str.is_digit rest in
        if String.eqb ds EmptyString then 0%Z
        else if negative then (- Z.of_N (of_digits ds))%Z
        else Z.of_N (of_digits ds)
      else 0%Z
  | EmptyString => 0%Z
  end.

(** The value of the longest prefix of [s] made of digits with an optional
    fraction and exponent; NaN when there is none. *)
Definition decimal_literal (negative : bool) (s : string) : number :=
  let '(int_part, s) := Str.span Str.is_digit s in
  let '(frac_part, s) :=
    match s with
    | String "." rest => Str.span Str.is_digit rest
    | _ => (EmptyString, s)
    end in
  if String.eqb (int_part +:+ frac_part) EmptyString then NaN
  else
    finite negative (of_digits (int_part +:+ frac_part))
      (exponent_part s - Z.of_nat (String.length frac_part)).

(** The value of the longest prefix of [s] that is a
    [StrUnsignedDecimalLiteral]: [Infinity] or a decimal literal. *)
Definition unsigned_decimal (negative : bool) (s : string) : number :=
  if String.prefix "Infinity" s then Infinity negative
  else decimal_literal negative s.

(** [parseFloat(string)] (ECMA-262, 19.2.4): the value of the longest prefix
    of the trimmed input that is a [StrDecimalLiteral], NaN when there is
    none. *)
Definition parseFloat (input : string) : number :=
  match Str.trim_start input with
  | String "-" rest => unsigned_decimal true rest
  | String "+" rest => unsigned_decimal false rest
  | s => unsigned_decimal false s
  end.

End Number.

Import Number.

(** ** Native values and wire values *)

(** What kind of object a native object is.  None of them is
    [instanceof Array].  A [Plain] object, a [Function] and a [Date] have
    [Object.prototype] in their prototype chain and are [instanceof Object];
    a [NullPrototype] object, such as [Object.create(null)], has not and is
    not. *)
Inductive ObjectKind :=
| Plain
| Function
| Date (source : string)  (* [new Date(Date.parse(source))] *)
| NullPrototype.

(** Native JavaScript values.  An object carries its own enumerable
    string-keyed properties, which is all that [Object.entries], [for-in] and
    the spread syntax look at; the properties are data properties, arrays
    have no holes, and a value is a finite tree: no object contains itself
    (for those that do, see [createField_at]). *)
Inductive Value :=
| VUndefined
| VNull
| VBoolean (b : bool)
| VNumber (n : number)
| VString (s : string)
| VSymbol (description : string)
| VArray (items : list Value)
| VObject (kind : ObjectKind) (props : gmap string Value)
| VBigInt (z : Z).

(** The payload of [integerValue] and [doubleValue]: a JSON string, which is
    what [createField] writes and what the REST interface sends for integers,
    or a JSON number, which the REST interface sends for doubles. *)
Inductive Numeral :=
| NString (s : string)
| NNumber (n : number).

(** Firestore wire values as the code handles them.  [FNull] is the
    JavaScript value [null]: [createField] returns it, so it can also sit in
    the [values] of an array or the [fields] of a map.  [FObject] is a JSON
    object in which each of the six tag properties is present ([Some]) or
    absent ([None]).  For [mapValue] and [arrayValue] the outer option is the
    tag property itself and the inner option its [fields] / [values]
    property. *)
Inductive Field :=
| FNull
| FObject (integerValue : option Numeral)
          (doubleValue : option Numeral)
          (booleanValue : option bool)
          (stringValue : option string)
          (mapValue : option (option (gmap string Field)))
          (arrayValue : option (option (list Field))).

(** The object literals that [createField] builds: one tag each. *)
Definition IntegerValue (s : string) : Field :=
  FObject (Some (NString s)) None None None None None.
Definition DoubleValue (s : string) : Field :=
  FObject None (Some (NString s)) None None None None.
Definition BooleanValue (b : bool) : Field :=
  FObject None None (Some b) None None None.
Definition StringValue (s : string) : Field :=
  FObject None None None (Some s) None None.
Definition MapValue (fields : gmap string Field) : Field :=
  FObject None None None None (Some (Some fields)) None.
Definition ArrayValue (values : list Field) : Field :=
  FObject None None None None None (Some (Some values)).

(** The object [{}]: no tag at all. *)
Definition Untagged : Field := FObject None None None None None None.

(** ** JavaScript operators used by the codec *)

(** [Number.isInteger(value)]: false for everything that is not a number. *)
Definition Number_isInteger (value : Value) : bool :=
  match value with
  | VNumber n => isInteger n
  | _ => false
  end.

(** [typeof value]. *)
Definition typeof (value : Value) : string :=
  match value with
  | VUndefined => "undefined"
  | VNull => "object"
  | VBoolean _ => "boolean"
  | VNumber _ => "number"
  | VString _ => "string"
  | VSymbol _ => "symbol"
  | VArray _ => "object"
  | VObject Function _ => "function"
  | VObject _ _ => "object"
  | VBigInt _ => "bigint"
  end.

(** [value instanceof Array] and [value instanceof Object]. *)
Definition instanceof_Array (value : Value) : bool :=
  match value with
  | VArray _ => true
  | _ => false
  end.

Definition instanceof_Object (value : Value) : bool :=
  match value with
  | VObject NullPrototype _ => false
  | VArray _ | VObject _ _ => true
  | _ => false
  end.

(** [ToBoolean] on the payloads a tag property can hold.  An object (the
    payload of [mapValue], of [arrayValue], and the [values] array) is always
    truthy, so for these the test is the presence of the property. *)
Definition truthy_string (s : string) : bool := negb (String.eqb s EmptyString).
Definition truthy_boolean (b : bool) : bool := b.
Definition truthy_numeral (p : Numeral) : bool :=
  match p with
  | NString s => truthy_string s
  | NNumber n => Number.truthy n
  end.

(** [ToString], which [parseInt] and [parseFloat] apply to their argument. *)
Definition ToString (p : Numeral) : string :=
  match p with
  | NString s => s
  | NNumber n => toString n
  end.

(** [if (field.tag)]: the value of a tag property when the property is
    present and its value is truthy. *)
Definition populated {A} (truthy : A → bool) (property : option A) : option A :=
  match property with
  | Some payload => if truthy payload then Some payload else None
  | None => None
  end.

(** ** The codec: [firestore.createField], [parseField], [parseMap] *)

(** [createField] (lines 16-24).  The arms follow the source's tests in
    order: [Number.isInteger], [typeof "number"], [typeof "boolean"],
    [typeof "string"], [instanceof Array], [instanceof Object], and the final
    [return null]. *)
Fixpoint createField (value : Value) : Field :=
  match value with
  | VNumber n =>
      if isInteger n then IntegerValue (toString n)
      else DoubleValue (toString n)
  | VBoolean b => BooleanValue b
  | VString s => StringValue s
  | VArray items => ArrayValue (createField <$> items)
  | VObject NullPrototype _ => FNull
  | VObject _ props => MapValue (createField <$> props)
  | VUndefined | VNull | VSymbol _ | VBigInt _ => FNull
  end.

(** The body of [parseMap] (lines 25-29), over the decoder used for the
    fields.  [for (const key in map.fields)] runs no iteration when [fields]
    is absent.  [None] is a thrown [TypeError].  The assignment
    [result[key] = v] defines an own property, except for the key
    ["__proto__"], which on a fresh [{}] reaches the prototype setter and
    defines no own property. *)
Definition parseMap_with (parse : Field → option Value)
    (map : option (gmap string Field)) : option (gmap string Value) :=
  match map with
  | None => Some ∅
  | Some fields =>
      map_fold
        (λ key field result,
           v ← parse field;
           result ← result;
           Some (if String.eqb key "__proto__" then result
                 else <[key := v]> result))
        (Some ∅) fields
  end.

(** [parseField] (lines 7-15).  Reading a property of [null] throws a
    [TypeError], modelled by [None]. *)
Fixpoint parseField (field : Field) : option Value :=
  match field with
  | FNull => None
  | FObject integerValue doubleValue booleanValue stringValue mapValue arrayValue =>
      match populated truthy_numeral integerValue with
      | Some p => Some (VNumber (parseInt (ToString p)))
      | None =>
      match populated truthy_numeral doubleValue with
      | Some p => Some (VNumber (parseFloat (ToString p)))
      | None =>
      match populated truthy_boolean booleanValue with
      | Some b => Some (VBoolean b)
      | None =>
      match populated truthy_string stringValue with
      | Some s => Some (VString s)
      | None =>
      match mapValue with
      | Some map => VObject Plain <$> parseMap_with parseField map
      | None =>
      match arrayValue with
      | Some (Some values) => VArray <$> mapM parseField values
      | _ => Some VNull
      end end end end end end
  end.

Definition parseMap (map : option (gmap string Field)) : option (gmap string Value) :=
  parseMap_with parseField map.

(** ** Decoding fetched documents: [firestore.getDocumentsForIds] *)

(** A document resource as the REST interface returns it. *)
Record DocumentJson := mkDocumentJson {
  name : string;
  fields : option (gmap string Field);
  createTime : string;
  updateTime : string;
}.

(** One entry of a [batchGet] response: [{found: {...}}] or
    [{missing: path}]. *)
Record BatchEntry := mkBatchEntry {
  found : option DocumentJson;
  missing : option string;
}.

(** The object literal
    [{id: doc.name.split("/").pop(), ...firestore.parseMap(doc),
      createTime: new Date(...), updateTime: new Date(...)}].
    Later properties of the literal win over earlier ones: the spread fields
    over [id], and the two timestamps over the spread fields. *)
Definition decodeDocument (doc : DocumentJson) : option Value :=
  let id := VString (Str.last_segment "/" (name doc)) in
  decoded ← parseMap (fields doc);
  Some (VObject Plain
          (<["updateTime" := VObject (Date (updateTime doc)) ∅]>
             (<["createTime" := VObject (Date (createTime doc)) ∅]>
                (decoded ∪ {["id" := id]})))).

(** [getDocumentsForIds] (lines 55-68) from the point where the response
    body [json] has arrived:
    [json.filter(doc => doc.found).map(({found: doc}) => ...)].
    Reading [doc.name] when [doc] is undefined would throw. *)
Definition getDocumentsForIds (json : list BatchEntry) : option (list Value) :=
  mapM (λ entry, match found entry with
                 | Some doc => decodeDocument doc
                 | None => None
                 end)
       (filter (λ entry, is_Some (found entry)) json).

(** ** The other fetch functions: [firestore.getDocument], [getDocuments] *)

(** The body of the response to the [GET] of one document: a document
    resource, or an error object, which has none of the three properties. *)
Module GetResponse.

Record t := mk {
  fields : option (gmap string Field);
  createTime : option string;
  updateTime : option string;
}.

End GetResponse.

(** [new Date(Date.parse(time))].  [Date.parse] applies [ToString] to its
    argument, which turns an absent property into ["undefined"]. *)
Definition new_Date_parse (time : option string) : Value :=
  VObject (Date (default "undefined" time)) ∅.

(** [getDocument] (lines 30-39) from the point where the response body
    [json] has arrived: the object literal
    [{id: documentId, ...firestore.parseMap(json), createTime: ...,
      updateTime: ...}]. *)
Definition getDocument (documentId : Value) (json : GetResponse.t) : option Value :=
  decoded ← parseMap (GetResponse.fields json);
  Some (VObject Plain
          (<["updateTime" := new_Date_parse (GetResponse.updateTime json)]>
             (<["createTime" := new_Date_parse (GetResponse.createTime json)]>
                (decoded ∪ {["id" := documentId]})))).

(** One entry of a [runQuery] response: [{document: {...}, readTime}], or
    an entry without [document]. *)
Record QueryEntry := mkQueryEntry {
  document : option DocumentJson;
  readTime : option string;
}.

(** [getDocuments] (lines 40-54) from the point where the response body
    [json] has arrived: [json.map(({document: doc}) => ...)], without a
    filter.  Reading [doc.name] when the entry has no [document] throws. *)
Definition getDocuments (json : list QueryEntry) : option (list Value) :=
  mapM (λ entry, match document entry with
                 | Some doc => decodeDocument doc
                 | None => None
                 end)
       json.

(** The field named [key] of a document, if the document has [fields] and
    the field. *)
Definition field_of (fields : option (gmap string Field)) (key : string)
    : option Field :=
  match fields with
  | Some m => m !! key
  | None => None
  end.

(** ** Requests *)

(** [firestore.projectPrefix]. *)
Definition projectPrefix : string :=
  "projects/vocab-u-study/databases/(default)/documents".

(** The [documents] of the request body of [getDocumentsForIds] (line 59). *)
Definition batchGet_documents (collectionKey : string) (documentIds : list string)
    : list string :=
  (λ id, projectPrefix +:+ "/" +:+ collectionKey +:+ "/" +:+ id) <$> documentIds.

(** Whether the character [c] occurs in [s]. *)
Fixpoint occurs (c : ascii) (s : string) : bool :=
  match s with
  | EmptyString => false
  | String c' rest => Ascii.eqb c' c || occurs c rest
  end.

(** ** The document classes

    An instance is a record of its properties.  The static methods call
    [new this(doc)] on the object literals that the fetch functions build,
    so a constructor is given here as a function of the properties [data] of
    such a literal. *)

(** [data.key]: [undefined] when the literal has no such property. *)
Definition property (data : gmap string Value) (key : string) : Value :=
  default VUndefined (data !! key).

Module Document.

Record t := mk {
  id : Value;
  createTime : Value;
  updateTime : Value;
}.

(** [constructor({id, createTime, updateTime})] (lines 75-82). *)
Definition new (data : gmap string Value) : t :=
  mk (property data "id") (property data "createTime")
     (property data "updateTime").

(** [new this(doc)]: [this] is the class on which the static method is
    called, given by its constructor [new_this]. *)
Definition construct {T} (new_this : gmap string Value → T) (doc : Value)
    : option T :=
  match doc with
  | VObject Plain data => Some (new_this data)
  | _ => None
  end.

(** [static async get(id)] (lines 83-85). *)
Definition get {T} (new_this : gmap string Value → T)
    (id : Value) (json : GetResponse.t) : option T :=
  doc ← getDocument id json; construct new_this doc.

(** [static async getDocuments(structuredQuery)] (lines 86-88). *)
Definition getDocuments {T} (new_this : gmap string Value → T)
    (json : list QueryEntry) : option (list T) :=
  docs ← getDocuments json; mapM (construct new_this) docs.

(** [static async getDocumentsForIds(documentIds)] (lines 89-91). *)
Definition getDocumentsForIds {T} (new_this : gmap string Value → T)
    (json : list BatchEntry) : option (list T) :=
  docs ← getDocumentsForIds json; mapM (construct new_this) docs.

End Document.

Module MetaSet.

Definition collectionKey : string := "meta_sets".

Record t := mk {
  super : Document.t;
  name : Value;
  nameWords : Value;
  creator : Value;
  uid : Value;
  public : Value;
  numTerms : Value;
  collections : Value;
  likes : Value;
}.

(** [constructor(data)] (lines 96-114). *)
Definition new (data : gmap string Value) : t :=
  mk (Document.new data)
     (property data "name") (property data "nameWords")
     (property data "creator") (property data "uid")
     (property data "public") (property data "numTerms")
     (property data "collections") (property data "likes").

End MetaSet.

Module CustomCollection.

Definition collectionKey : string := "collections".

Record t := mk {
  super : Document.t;
  name : Value;
  sets : Value;
  uid : Value;
}.

(** [constructor(data)] (lines 119-127). *)
Definition new (data : gmap string Value) : t :=
  mk (Document.new data)
     (property data "name") (property data "sets") (property data "uid").

End CustomCollection.

Module VocabSet.

Definition collectionKey : string := "sets".

Record t := mk {
  super : Document.t;
  name : Value;
  description : Value;
  uid : Value;
  public : Value;
  terms : Value;
}.

(** [constructor(data)] (lines 132-144). *)
Definition new (data : gmap string Value) : t :=
  mk (Document.new data)
     (property data "name") (property data "description")
     (property data "uid") (property data "public") (property data "terms").

End VocabSet.

(** ** The codec in the words of the specification *)

(** [decode] as sections 3 and 4.1 of the specification state it.  A wire
    value has one variant tag set; [decode] looks at the tags in the order
    Integer, Double, Boolean, String, Map, Array and returns the native value
    of the variant that is set: the number that the payload is read as, the
    boolean, the string, the map of the decoded fields, the list of the
    decoded elements (none when there are no [values]).  A value with no tag
    set, and the null marker, decode to [null]; [decode] never raises. *)
Fixpoint decode_by_tag (field : Field) : Value :=
  match field with
  | FNull => VNull
  | FObject integerValue doubleValue booleanValue stringValue mapValue arrayValue =>
      match integerValue with
      | Some payload => VNumber (parseInt (ToString payload))
      | None =>
      match doubleValue with
      | Some payload => VNumber (parseFloat (ToString payload))
      | None =>
      match booleanValue with
      | Some b => VBoolean b
      | None =>
      match stringValue with
      | Some s => VString s
      | None =>
      match mapValue with
      | Some (Some fields) => VObject Plain (decode_by_tag <$> fields)
      | Some None => VObject Plain ∅
      | None =>
      match arrayValue with
      | Some (Some values) => VArray (decode_by_tag <$> values)
      | Some None => VArray []
      | None => VNull
      end end end end end end
  end.

(** The wire values on which testing a payload and testing its tag come to
    the same: the JavaScript [null] does not occur, every scalar tag that is
    set holds a truthy payload, every [arrayValue] has [values], and no field
    is named ["__proto__"]. *)
Fixpoint truthy_payloads (field : Field) : bool :=
  match field with
  | FNull => false
  | FObject integerValue doubleValue booleanValue stringValue mapValue arrayValue =>
      match integerValue with Some payload => truthy_numeral payload | None => true end
      && match doubleValue with Some payload => truthy_numeral payload | None => true end
      && match booleanValue with Some b => truthy_boolean b | None => true end
      && match stringValue with Some s => truthy_string s | None => true end
      && match mapValue with
         | Some (Some fields) =>
             map_fold (λ key f b,
                         negb (String.eqb key "__proto__") && truthy_payloads f && b)
                      true fields
         | _ => true
         end
      && match arrayValue with
         | Some (Some values) => forallb truthy_payloads values
         | Some None => false
         | None => true
         end
  end.

(** The elements of an Array variant: those of its [values], and none when
    it has no [values]. *)
Definition elements (payload : option (list Field)) : list Field :=
  default [] payload.

(** A number without fractional part: [s * 10^e] is a natural number [m]. *)
Definition no_fraction (x : number) : Prop :=
  match x with
  | Finite _ s e =>
      ∃ m : N, (s * 10 ^ Z.to_N e = m * 10 ^ Z.to_N (- e))%N
  | _ => False
  end.

(** The inputs that the specification calls recognized: a primitive (null,
    boolean, number, string), a list, or a string-keyed map.  Its numbers are
    the JavaScript numbers, and its maps the plain objects. *)
Definition recognized (value : Value) : bool :=
  match value with
  | VNull | VBoolean _ | VNumber _ | VString _ => true
  | VArray _ => true
  | VObject Plain _ => true
  | _ => false
  end.

(** ** Digit strings *)

(** A decimal that starts with a digit other than 0. *)
Definition leading (u : Decimal.uint) : Prop :=
  match u with
  | Decimal.Nil | Decimal.D0 _ => False
  | _ => True
  end.

Definition leading_char (s : string) : Prop :=
  match s with
  | String c _ => Str.is_digit c = true ∧ c ≠ "0"%char
  | EmptyString => False
  end.

(** A string of digits: the library reads it as a decimal. *)
Definition digit_string (s : string) : Prop :=
  is_Some (NilEmpty.uint_of_string s).

(** [span] stops at the first character that is not a digit. *)
Definition stops (s : string) : Prop :=
  match s with
  | String c _ => Str.is_digit c = false
  | EmptyString => True
  end.

(** ** Well-formed wire values *)

(** Size of a wire value: the number of its nodes. *)
Fixpoint Field_size (field : Field) : nat :=
  match field with
  | FNull => 1
  | FObject _ _ _ _ mapValue arrayValue =>
      S (match mapValue with
         | Some (Some fields) => map_fold (λ _ f n, Field_size f + n) 0 fields
         | _ => 0
         end
         + match arrayValue with
           | Some (Some values) => foldr (λ f n, Field_size f + n) 0 values
           | _ => 0
           end)
  end.

(** A wire value made of JSON objects only: the JavaScript [null] occurs
    neither as the value itself nor among the [fields] and [values] below
    it. *)
Fixpoint null_free (field : Field) : bool :=
  match field with
  | FNull => false
  | FObject _ _ _ _ mapValue arrayValue =>
      match mapValue with
      | Some (Some fields) => map_fold (λ _ f b, null_free f && b) true fields
      | _ => true
      end
      && match arrayValue with
         | Some (Some values) => forallb null_free values
         | _ => true
         end
  end.

(** A document resource all of whose fields are JSON objects. *)
Definition fields_null_free (doc : DocumentJson) : bool :=
  null_free (FObject None None None None (Some (fields doc)) None).

(** ** Values that survive the round trip *)

(** Size of a native value: the number of its nodes. *)
Fixpoint Value_size (value : Value) : nat :=
  match value with
  | VArray items => S (foldr (λ v n, Value_size v + n) 0 items)
  | VObject _ props => S (map_fold (λ _ v n, Value_size v + n) 0 props)
  | _ => 1
  end.

(** What a number comes back as: printed by [createField], then read by
    [parseInt] or [parseFloat] according to its tag. *)
Definition reparsed (n : number) : number :=
  if isInteger n then parseInt (toString n) else parseFloat (toString n).

(** Numbers that survive printing and reading: NaN, the infinities, +0, and
    finite numbers in canonical form (the significand is not a multiple of
    ten) that have a fractional part or are below [10^21]. *)
Definition number_faithful (n : number) : bool :=
  match n with
  | NaN | Infinity _ => true
  | Finite negative s e =>
      if (s =? 0)%N then negb negative && (e =? 0)%Z
      else negb (s mod 10 =? 0)%N
           && ((e <? 0)%Z || (s * 10 ^ Z.to_N e <? 10 ^ 21)%N)
  end.

(** The native values on which the round trip does hold: [true], non-empty
    strings, faithful numbers, and lists and plain objects of such values,
    no property being named ["__proto__"]. *)
Fixpoint faithful (value : Value) : bool :=
  match value with
  | VBoolean b => b
  | VString s => truthy_string s
  | VNumber n => number_faithful n
  | VArray items => forallb faithful items
  | VObject Plain props =>
      map_fold (λ key v b,
                  negb (String.eqb key "__proto__") && faithful v && b)
               true props
  | _ => false
  end.

(** ** Shapes of decoded and encoded values *)

(** The native values that decoding can return: [null], [true], numbers,
    non-empty strings, and lists and plain objects of such values, no
    property being named ["__proto__"]. *)
Fixpoint decoded_shape (value : Value) : bool :=
  match value with
  | VNull => true
  | VBoolean b => b
  | VNumber _ => true
  | VString s => truthy_string s
  | VArray items => forallb decoded_shape items
  | VObject Plain props =>
      map_fold (λ key v b,
                  negb (String.eqb key "__proto__") && decoded_shape v && b)
               true props
  | _ => false
  end.

(** A native value in which the inputs that [createField] turns into the
    JavaScript [null] occur nowhere, neither as the value itself nor among
    the elements and properties below it: [undefined], [null], symbols,
    BigInts, and objects that are not [instanceof Object]. *)
Fixpoint encodable (value : Value) : bool :=
  match value with
  | VUndefined | VNull | VSymbol _ | VBigInt _ => false
  | VObject NullPrototype _ => false
  | VArray items => forallb encodable items
  | VObject _ props => map_fold (λ _ v b, encodable v && b) true props
  | _ => true
  end.

(** The number of tag properties that a wire object has. *)
Definition present {A} (tag : option A) : nat :=
  match tag with
  | Some _ => 1
  | None => 0
  end.

Definition tag_count (field : Field) : nat :=
  match field with
  | FNull => 0
  | FObject integerValue doubleValue booleanValue stringValue mapValue arrayValue =>
      present integerValue + present doubleValue + present booleanValue
      + present stringValue + present mapValue + present arrayValue
  end.

(** A wire value in which every object has exactly one tag, numbers are held
    as strings, a [mapValue] has [fields] and an [arrayValue] has [values];
    the JavaScript [null] may stand for a whole value. *)
Fixpoint encoded_shape (field : Field) : bool :=
  match field with
  | FNull => true
  | FObject integerValue doubleValue _ _ mapValue arrayValue =>
      Nat.eqb (tag_count field) 1
      && match integerValue with Some (NNumber _) => false | _ => true end
      && match doubleValue with Some (NNumber _) => false | _ => true end
      && match mapValue with
         | Some (Some fields) =>
             map_fold (λ _ f b, encoded_shape f && b) true fields
         | Some None => false
         | None => true
         end
      && match arrayValue with
         | Some (Some values) => forallb encoded_shape values
         | Some None => false
         | None => true
         end
  end.

(** ** The store of mutable objects

    [QueryBuilder] keeps its state in the object [this.query] and mutates it
    and the objects it refers to in place.  Objects therefore live in a store
    and are referred to by location; a new object gets the next free
    location. *)

Abbreviation loc := nat (only parsing).

(** The query object [this.query]: each property is absent or set. *)
Record Query := mkQuery {
  q_where : option loc;      (* a filter object *)
  q_orderBy : option loc;    (* an array of orderings *)
  q_limit : option Value;
  q_offset : option Value;
}.

(** One element [{field: {fieldPath}, direction}] of the [orderBy] array. *)
Record Order := mkOrder {
  o_fieldPath : string;
  o_direction : string;
}.

Inductive object :=
| QueryObject (q : Query)
  (* [{fieldFilter: {field: {fieldPath}, op, value}}] *)
| FieldFilterObject (fieldPath : string) (op : string) (value : Field)
  (* [{compositeFilter: {op, filters: [...]}}]; the array holds references *)
| CompositeFilterObject (op : string) (filters : list loc)
  (* the array held in [query.orderBy] *)
| OrderArray (items : list Order).

Abbreviation store := (list object) (only parsing).

(** Computations on the store; [None] is a thrown [TypeError]. *)
Definition M (A : Type) : Type := store → option (A * store).

Definition ret {A} (a : A) : M A := λ σ, Some (a, σ).
Definition bind {A B} (c : M A) (k : A → M B) : M B :=
  λ σ, match c σ with
       | Some (a, σ') => k a σ'
       | None => None
       end.
Definition throw {A} : M A := λ _, None.

Notation "'do' x <- c ; k" := (bind c (λ x, k))
  (at level 10, x name, c at level 100, k at level 200).
Notation "c ;; k" := (bind c (λ _, k))
  (at level 100, k at level 200, right associativity).

(** A fresh object. *)
Definition alloc (o : object) : M loc := λ σ, Some (length σ, σ ++ [o]).

(** The object at a location. *)
Definition load (l : loc) : M object :=
  λ σ, match σ !! l with
       | Some o => Some (o, σ)
       | None => None
       end.

(** In-place update of the object at a location. *)
Definition update (l : loc) (o : object) : M unit :=
  λ σ, if decide (l < length σ) then Some ((), <[l := o]> σ) else None.

Definition load_query (l : loc) : M Query :=
  do o <- load l;
  match o with
  | QueryObject q => ret q
  | _ => throw
  end.

(** ** The class [QueryBuilder] *)

Module QueryBuilder.

(** A builder object; its only property is [query]. *)
Record t := mk { query : loc }.

(** [constructor() { this.query = {}; }] *)
Definition new : M t :=
  do q <- alloc (QueryObject (mkQuery None None None None));
  ret (mk q).

(** [where(field, op, value)] (lines 157-163). *)
Definition where_ (this : t) (field op : string) (value : Value) : M t :=
  do fieldFilter <- alloc (FieldFilterObject field op (createField value));
  do q <- load_query (query this);
  match q_where q with
  | None =>
      update (query this)
        (QueryObject (mkQuery (Some fieldFilter) (q_orderBy q) (q_limit q) (q_offset q)));;
      ret this
  | Some w =>
      do filter <- load w;
      match filter with
      | FieldFilterObject _ _ _ =>
          do composite <- alloc (CompositeFilterObject "AND" [w; fieldFilter]);
          update (query this)
            (QueryObject (mkQuery (Some composite) (q_orderBy q) (q_limit q) (q_offset q)));;
          ret this
      | CompositeFilterObject op filters =>
          update w (CompositeFilterObject op (filters ++ [fieldFilter]));;
          ret this
      | _ => throw
      end
  end.

(** [orderBy(field, direction)] (lines 169-173). *)
Definition orderBy (this : t) (field direction : string) : M t :=
  do q <- load_query (query this);
  match q_orderBy q with
  | None =>
      do array <- alloc (OrderArray []);
      update (query this)
        (QueryObject (mkQuery (q_where q) (Some array) (q_limit q) (q_offset q)))
  | Some _ => ret ()
  end;;
  do q <- load_query (query this);
  match q_orderBy q with
  | None => throw
  | Some array =>
      do o <- load array;
      match o with
      | OrderArray items =>
          update array (OrderArray (items ++ [mkOrder field direction]));;
          ret this
      | _ => throw
      end
  end.

(** [limit(limit)] (lines 178-181). *)
Definition limit (this : t) (limit : Value) : M t :=
  do q <- load_query (query this);
  update (query this)
    (QueryObject (mkQuery (q_where q) (q_orderBy q) (Some limit) (q_offset q)));;
  ret this.

(** [setOffset(offset)] (lines 186-189). *)
Definition setOffset (this : t) (offset : Value) : M t :=
  do q <- load_query (query this);
  update (query this)
    (QueryObject (mkQuery (q_where q) (q_orderBy q) (q_limit q) (Some offset)));;
  ret this.

(** [build() { return this.query; }]: the reference itself. *)
Definition build (this : t) : M loc := ret (query this).

End QueryBuilder.

(** ** Reading a descriptor out of the store

    What a reader that follows the references from a query object sees, as a
    tree: this is the structure [JSON.stringify] would serialize. *)

Inductive Filter :=
| FieldFilter (fieldPath : string) (op : string) (value : Field)
| CompositeFilter (op : string) (filters : list Filter).

Record Descriptor := mkDescriptor {
  d_where : option Filter;
  d_orderBy : option (list Order);
  d_limit : option Value;
  d_offset : option Value;
}.

(** The filter tree below location [l], followed to at most [depth] levels. *)
Fixpoint read_filter (depth : nat) (σ : store) (l : loc) : option Filter :=
  match depth with
  | O => None
  | S depth =>
      match σ !! l with
      | Some (FieldFilterObject fieldPath op value) =>
          Some (FieldFilter fieldPath op value)
      | Some (CompositeFilterObject op filters) =>
          CompositeFilter op <$> mapM (read_filter depth σ) filters
      | _ => None
      end
  end.

Definition read_orders (σ : store) (l : loc) : option (list Order) :=
  match σ !! l with
  | Some (OrderArray items) => Some items
  | _ => None
  end.

(** Reads an optional reference: an absent property stays absent. *)
Definition read_optional {A} (read : loc → option A) (property : option loc)
    : option (option A) :=
  match property with
  | None => Some None
  | Some l => Some <$> read l
  end.

Definition read_descriptor (depth : nat) (σ : store) (l : loc) : option Descriptor :=
  match σ !! l with
  | Some (QueryObject q) =>
      w ← read_optional (read_filter depth σ) (q_where q);
      o ← read_optional (read_orders σ) (q_orderBy q);
      Some (mkDescriptor w o (q_limit q) (q_offset q))
  | _ => None
  end.

(** ** Call sequences on a builder *)

Inductive Call :=
| Where (field op : string) (value : Value)
| OrderBy (field direction : string)
| Limit (limit : Value)
| SetOffset (offset : Value)
| Build.

(** One method call on [this]; every method but [build] returns [this], and
    the descriptor that [build] returns is dropped here. *)
Definition call (this : QueryBuilder.t) (c : Call) : M QueryBuilder.t :=
  match c with
  | Where field op value => QueryBuilder.where_ this field op value
  | OrderBy field direction => QueryBuilder.orderBy this field direction
  | Limit limit => QueryBuilder.limit this limit
  | SetOffset offset => QueryBuilder.setOffset this offset
  | Build => QueryBuilder.build this;; ret this
  end.

Fixpoint calls (this : QueryBuilder.t) (cs : list Call) : M QueryBuilder.t :=
  match cs with
  | [] => ret this
  | c :: cs => do this <- call this c; calls this cs
  end.

(** [new QueryBuilder()] followed by the calls [cs]. *)
Definition session (cs : list Call) : M QueryBuilder.t :=
  do this <- QueryBuilder.new; calls this cs.

(** ** What a call sequence asks for

    These functions follow the wording of the specification; the theorems
    below compare them with what the code leaves in the store. *)

(** The leaf comparison of a [where] call. *)
Definition leaf (field op : string) (value : Value) : Filter :=
  FieldFilter field op (createField value).

(** The leaves of the [where] calls, in call order. *)
Fixpoint leaves_of (cs : list Call) : list Filter :=
  match cs with
  | [] => []
  | Where field op value :: cs => leaf field op value :: leaves_of cs
  | _ :: cs => leaves_of cs
  end.

(** The pairs of the [orderBy] calls, in call order. *)
Fixpoint orders_of (cs : list Call) : list Order :=
  match cs with
  | [] => []
  | OrderBy field direction :: cs => mkOrder field direction :: orders_of cs
  | _ :: cs => orders_of cs
  end.

(** The argument of the last [limit] call, starting from [current]. *)
Fixpoint last_limit (current : option Value) (cs : list Call) : option Value :=
  match cs with
  | [] => current
  | Limit limit :: cs => last_limit (Some limit) cs
  | _ :: cs => last_limit current cs
  end.

(** The argument of the last [setOffset] call, starting from [current]. *)
Fixpoint last_offset (current : option Value) (cs : list Call) : option Value :=
  match cs with
  | [] => current
  | SetOffset offset :: cs => last_offset (Some offset) cs
  | _ :: cs => last_offset current cs
  end.

(** No filter, the single leaf, or one flat AND over all the leaves. *)
Definition flat_and (leaves : list Filter) : option Filter :=
  match leaves with
  | [] => None
  | [single] => Some single
  | _ => Some (CompositeFilter "AND" leaves)
  end.

(** No ordering property until the first [orderBy]. *)
Definition ordering (orders : list Order) : option (list Order) :=
  match orders with
  | [] => None
  | _ => Some orders
  end.

(** ** Shapes of stored objects *)

(** The four shapes of object in the store. *)
Inductive shape := QueryShape | LeafShape | CompositeShape | ArrayShape.

Definition shape_of (o : object) : shape :=
  match o with
  | QueryObject _ => QueryShape
  | FieldFilterObject _ _ _ => LeafShape
  | CompositeFilterObject _ _ => CompositeShape
  | OrderArray _ => ArrayShape
  end.

(** Every object of shape [s] in [σ] is still there, unchanged, in [σ']. *)
Definition preserves (s : shape) (σ σ' : store) : Prop :=
  ∀ l o, shape_of o = s → σ !! l = Some o → σ' !! l = Some o.

(** ** The builder's representation invariant *)

(** Location [l] holds the leaf comparison [x]. *)
Definition holds_leaf (σ : store) (l : loc) (x : Filter) : Prop :=
  match x with
  | FieldFilter fieldPath op value =>
      σ !! l = Some (FieldFilterObject fieldPath op value)
  | CompositeFilter _ _ => False
  end.

(** The [where] property stands for the leaves [xs]: absent for none, a leaf
    object for one, and for more one composite object whose array refers to
    the leaf objects in order. *)
Definition where_rep (σ : store) (w : option loc) (xs : list Filter) : Prop :=
  match xs with
  | [] => w = None
  | [x] => ∃ l, w = Some l ∧ holds_leaf σ l x
  | _ => ∃ c ls, w = Some c
                 ∧ σ !! c = Some (CompositeFilterObject "AND" ls)
                 ∧ Forall2 (holds_leaf σ) ls xs
  end.

(** The [orderBy] property stands for the orderings [os]. *)
Definition orderBy_rep (σ : store) (a : option loc) (os : list Order) : Prop :=
  match os with
  | [] => a = None
  | _ => ∃ l, a = Some l ∧ σ !! l = Some (OrderArray os)
  end.

(** The location that [this.query.where] refers to, if the property is set. *)
Definition where_loc (σ : store) (this : QueryBuilder.t) : option loc :=
  match σ !! QueryBuilder.query this with
  | Some (QueryObject q) => q_where q
  | _ => None
  end.

(** The builder [this] has accumulated leaves [xs], orderings [os], and the
    given limit and offset. *)
Definition represents (σ : store) (this : QueryBuilder.t)
    (xs : list Filter) (os : list Order) (lim off : option Value) : Prop :=
  ∃ q, σ !! QueryBuilder.query this = Some (QueryObject q)
       ∧ where_rep σ (q_where q) xs
       ∧ orderBy_rep σ (q_orderBy q) os
       ∧ q_limit q = lim
       ∧ q_offset q = off.

(** The descriptor that the calls [cs] ask for. *)
Definition descriptor_of (cs : list Call) : Descriptor :=
  mkDescriptor (flat_and (leaves_of cs)) (ordering (orders_of cs))
    (last_limit None cs) (last_offset None cs).

(** ** Two builders *)

(** Calls on two builders in any interleaving: [(true, c)] is the call [c]
    on [a], and [(false, c)] the call [c] on [b]. *)
Fixpoint interleaved (a b : QueryBuilder.t) (cs : list (bool * Call)) : M unit :=
  match cs with
  | [] => ret ()
  | (true, c) :: cs => call a c;; interleaved a b cs
  | (false, c) :: cs => call b c;; interleaved a b cs
  end.

(** The calls made on one of the two builders, in order. *)
Fixpoint calls_on (who : bool) (cs : list (bool * Call)) : list Call :=
  match cs with
  | [] => []
  | (w, c) :: cs =>
      if Bool.eqb w who then c :: calls_on who cs else calls_on who cs
  end.

(** The locations that the methods of [this] update in place: the query
    object, the filter that it refers to, and its array of orderings. *)
Definition anchors (σ : list object) (this : QueryBuilder.t) : list nat :=
  QueryBuilder.query this ::
  match σ !! QueryBuilder.query this with
  | Some (QueryObject q) => option_list (q_where q) ++ option_list (q_orderBy q)
  | _ => []
  end.

(** The locations other than [L] keep their objects. *)
Definition outside (L : list nat) (σ σ' : list object) : Prop :=
  ∀ l o, σ !! l = Some o → l ∉ L → σ' !! l = Some o.

(** What a call on [this] leaves alone: every object outside the anchors of
    [this], and every leaf; and the anchors it adds are new objects. *)
Definition framed (σ : list object) (this : QueryBuilder.t) (σ' : list object)
    : Prop :=
  outside (anchors σ this) σ σ'
  ∧ preserves LeafShape σ σ'
  ∧ (∀ l, l ∈ anchors σ' this → l ∈ anchors σ this ∨ (length σ ≤ l)%nat).

(** The anchors of two builders are different locations. *)
Definition separate (σ : list object) (a b : QueryBuilder.t) : Prop :=
  ∀ l, l ∈ anchors σ a → l ∉ anchors σ b.

(** ** Objects that contain themselves *)

(** [Value] holds the native values that are finite trees.  An array or an
    object that is reached again from one of its own elements or properties
    is not one of them.  For these the arrays and objects sit in a graph and
    hold one another by address: a slot is a value of its own or the address
    of a node, and a node is an instance of [Array] with its elements or
    another instance of [Object] with its own enumerable properties, in the
    order of [Object.entries], each key once. *)
Inductive Slot :=
| Immediate (value : Value)
| Reference (address : nat).

Inductive Node :=
| ArrayNode (items : list Slot)
| ObjectNode (entries : list (string * Slot)).

Definition slots (node : Node) : list Slot :=
  match node with
  | ArrayNode items => items
  | ObjectNode entries => entries.*2
  end.

(** The node at [a] holds the node at [b]. *)
Definition edge (graph : list Node) (a b : nat) : Prop :=
  ∃ node, graph !! a = Some node ∧ Reference b ∈ slots node.

(** [createField] (lines 16-24) on a slot of a graph.  The calls on the
    elements of an array and on the properties of an object are nested in
    the call on the array or object; [depth] is the number of nested calls
    on nodes that the call stack has room for, and [None] is a thrown
    exception: the [RangeError] of the engine when there is no room left. *)
Fixpoint createField_at (graph : list Node) (depth : nat) (slot : Slot)
    : option Field :=
  match slot with
  | Immediate value => Some (createField value)
  | Reference address =>
      match depth with
      | 0 => None
      | S depth =>
          match graph !! address with
          | Some (ArrayNode items) =>
              ArrayValue <$> mapM (createField_at graph depth) items
          | Some (ObjectNode entries) =>
              (λ encoded, MapValue (list_to_map encoded))
                <$> mapM (λ entry, pair entry.1
                                     <$> createField_at graph depth entry.2)
                         entries
          | None => None
          end
      end
  end.

(** ** Sample inputs *)

(** Three requested ids, of which the store reports two as found. *)
Definition batch_response : list BatchEntry :=
  [ mkBatchEntry
      (Some (mkDocumentJson
               "projects/vocab-u-study/databases/(default)/documents/sets/a1"
               (Some {[ "name" := StringValue "Verbs";
                        "public" := BooleanValue true;
                        "likes" := IntegerValue "3" ]})
               "2023-01-01T00:00:00Z" "2023-01-02T00:00:00Z"))
      None;
    mkBatchEntry None
      (Some "projects/vocab-u-study/databases/(default)/documents/sets/b2");
    mkBatchEntry
      (Some (mkDocumentJson
               "projects/vocab-u-study/databases/(default)/documents/sets/c3"
               (Some {[ "name" := StringValue "Nouns";
                        "terms" := ArrayValue [MapValue {[ "term" := StringValue "cat" ]}] ]})
               "2023-02-01T00:00:00Z" "2023-02-02T00:00:00Z"))
      None ].

(** A native value as the application stores it. *)
Definition public_set : Value :=
  VObject Plain
    {[ "name" := VString "Verbs";
       "public" := VBoolean true;
       "likes" := VNumber (of_Z 3);
       "ratio" := VNumber (parseFloat "0.75");
       "terms" := VArray [ VObject Plain {[ "term" := VString "cat" ]};
                           VNumber (parseFloat "-1.5e-7") ] ]}.

(** A stored set: private, with an empty description, and with a field that
    is itself named [id]. *)
Definition private_set : DocumentJson :=
  mkDocumentJson
    "projects/vocab-u-study/databases/(default)/documents/sets/a1"
    (Some {[ "name" := StringValue "Verbs";
             "description" := StringValue EmptyString;
             "public" := BooleanValue false;
             "id" := StringValue "legacy-7";
             "createTime" := StringValue "never" ]})
    "2023-01-01T00:00:00Z" "2023-01-02T00:00:00Z".

(** Its fields, decoded. *)
Definition private_set_decoded : gmap string Value :=
  {[ "name" := VString "Verbs";
     "description" := VNull;
     "public" := VNull;
     "id" := VString "legacy-7";
     "createTime" := VString "never" ]}.

(** The same set as the body of a [GET] response. *)
Definition get_response : GetResponse.t :=
  GetResponse.mk (fields private_set)
    (Some (createTime private_set)) (Some (updateTime private_set)).

(** A [runQuery] response with two documents. *)
Definition query_response : list QueryEntry :=
  [ mkQueryEntry (Some private_set) (Some "2023-03-01T00:00:00Z");
    mkQueryEntry
      (Some (mkDocumentJson
               "projects/vocab-u-study/databases/(default)/documents/sets/c3"
               (Some {[ "name" := StringValue "Nouns" ]})
               "2023-02-01T00:00:00Z" "2023-02-02T00:00:00Z"))
      (Some "2023-03-01T00:00:00Z") ].

(** Two call sequences that ask for the same clauses in a different order. *)
Definition filter_first : list Call :=
  [ Where "public" "EQUAL" (VBoolean true); Where "likes" "GREATER_THAN" (VNumber (of_Z 3));
    OrderBy "likes" "DESCENDING"; Limit (VNumber (of_Z 10)) ].

Definition limit_first : list Call :=
  [ Limit (VNumber (of_Z 50)); OrderBy "likes" "DESCENDING";
    Where "public" "EQUAL" (VBoolean true); Build; Limit (VNumber (of_Z 10));
    Where "likes" "GREATER_THAN" (VNumber (of_Z 3)) ].

(** [const o = {}; o.self = o]. *)
Definition self_containing : list Node :=
  [ObjectNode [("self", Reference 0)]].

(** [const o = {list: [1, {}]}]: nothing is reached twice. *)
Definition nested : list Node :=
  [ ObjectNode [("list", Reference 1)];
    ArrayNode [Immediate (VNumber (of_Z 1)); Reference 2];
    ObjectNode [] ].

(** * Proofs *)

(** ** Printing and reading numbers *)

Section NumberFacts.

Lemma isInteger_no_fraction x : isInteger x = true ↔ no_fraction x.
Proof.
  destruct x as [| |neg s e]; simpl; [done|done|].
  rewrite orb_true_iff, Z.leb_le, N.eqb_eq.
  destruct (Z.le_gt_cases 0 e) as [He|He].
  - split; [intros _|by left].
    exists (s * 10 ^ Z.to_N e)%N.
    replace (Z.to_N (- e)) with 0%N by lia. simpl. lia.
  - replace (Z.to_N e) with 0%N by lia. rewrite N.pow_0_r, N.mul_1_r.
    assert (Hpos : (10 ^ Z.to_N (- e) ≠ 0)%N) by (apply N.pow_nonzero; lia).
    split.
    + intros [?|Hmod]; [lia|].
      apply N.Lcm0.mod_divide in Hmod. destruct Hmod as [m Hm]. by exists m.
    + intros [m Hm]. right. apply N.Lcm0.mod_divide. by exists m.
Qed.

(** Every integer, as a number, has no fractional part. *)
Lemma of_Z_no_fraction (z : Z) : no_fraction (of_Z z).
Proof.
  apply isInteger_no_fraction. unfold of_Z, finite.
  destruct (Z.abs_N z =? 0)%N; [done|].
  unfold significand. destruct (Str.trim_zeros _) as [ds zeros]. simpl.
  apply orb_true_iff. left. apply Z.leb_le. lia.
Qed.

(** [trim_zeros] splits a string into a part without trailing zero and
    the zeros. *)
Lemma trim_zeros_spec (s : string) : ∀ kept n,
  Str.trim_zeros s = (kept, n) →
  s = kept +:+ Str.zeros n ∧ Str.trim_zeros kept = (kept, O).
Proof.
  induction s as [|c rest IH]; intros kept n; simpl.
  - by intros [= <- <-].
  - destruct (Str.trim_zeros rest) as [k m].
    destruct (IH k m eq_refl) as [-> Hk]. destruct k as [|c' k].
    + destruct (Ascii.eqb_spec c "0") as [->|Hc]; intros [= <- <-].
      * done.
      * split; [done|]. simpl.
        by destruct (Ascii.eqb_spec c "0").
    + intros [= <- <-]. split; [done|].
      change (Str.trim_zeros (String c (String c' k)))
        with (match Str.trim_zeros (String c' k) with
              | (EmptyString, n) =>
                  if Ascii.eqb c "0" then (EmptyString, S n)
                  else (String c EmptyString, n)
              | (kept, n) => (String c kept, n)
              end).
      by rewrite Hk.
Qed.

(** A digit string is read by [parse_digits] as by the library. *)
Lemma parse_digits_acc (u : Decimal.uint) : ∀ a : positive,
  parse_digits 10 (NilEmpty.string_of_uint u) (Some (Npos a))
  = Some (Npos (Pos.of_uint_acc u a)).
Proof.
  induction u; intros a; simpl; [done|..]; rewrite <- IHu; do 2 f_equal; lia.
Qed.

Lemma parse_digits_zero (u : Decimal.uint) :
  parse_digits 10 (NilEmpty.string_of_uint u) (Some 0%N) = Some (N.of_uint u).
Proof.
  induction u; simpl; [done|done|..]; apply parse_digits_acc.
Qed.

Lemma parse_digits_uint (u : Decimal.uint) :
  u ≠ Decimal.Nil →
  parse_digits 10 (NilEmpty.string_of_uint u) None = Some (N.of_uint u).
Proof.
  intros Hu. rewrite <- parse_digits_zero. by destruct u.
Qed.

Lemma to_uint_leading (p : positive) : leading (Pos.to_uint p).
Proof.
  pose proof (DecimalPos.Unsigned.to_of (Pos.to_uint p)) as H.
  rewrite DecimalPos.Unsigned.of_to in H. simpl in H.
  destruct (Pos.to_uint p) as [|u| | | | | | | | |] eqn:Hu; simpl; try done.
  rewrite unorm_D0 in H. unfold Decimal.unorm in H.
  destruct (Decimal.nzhead u) eqn:Hnz; try done.
  - injection H as ->. by apply DecimalPos.Unsigned.to_uint_nonzero in Hu.
  - by apply nzhead_nonzero in Hnz.
Qed.

Lemma leading_string (u : Decimal.uint) :
  leading u → leading_char (NilEmpty.string_of_uint u).
Proof. by destruct u. Qed.

Lemma string_leading (ds : string) (h : Decimal.uint) :
  NilEmpty.uint_of_string ds = Some h → leading_char ds → leading h.
Proof.
  destruct ds as [|c ds]; simpl; [done|].
  destruct (NilEmpty.uint_of_string ds); [|done].
  intros H%uint_of_char_spec [_ Hc]. by intuition subst.
Qed.

Lemma uint_of_prefix (ds rest : string) : ∀ u,
  NilEmpty.uint_of_string (ds +:+ rest) = Some u →
  ∃ h, NilEmpty.uint_of_string ds = Some h.
Proof.
  induction ds as [|c ds IH]; intros u; simpl; [by eexists|].
  destruct (NilEmpty.uint_of_string (ds +:+ rest)) as [u'|] eqn:Hu'; [|done].
  destruct (IH u' eq_refl) as [h ->].
  intros H%uint_of_char_spec. by intuition subst; eexists.
Qed.

(** Printing the value of a digit string without leading zero gives the
    string back. *)
Lemma digits_of_digits (ds : string) (h : Decimal.uint) :
  NilEmpty.uint_of_string ds = Some h → leading h →
  Number.digits (of_digits ds) = ds ∧ of_digits ds ≠ 0%N.
Proof.
  intros Hh Hlead. unfold of_digits, Number.digits.
  assert (NilZero.uint_of_string ds = Some h) as ->.
  { destruct ds; [|done]. injection Hh as <-. done. }
  rewrite DecimalN.Unsigned.to_of.
  assert (Decimal.unorm h = h) as -> by (by destruct h).
  assert (NilZero.string_of_uint h = ds) as Hprint.
  { apply NilZero.sus. destruct ds; [|done]. injection Hh as <-. done. }
  split; [done|].
  intros Hzero. apply (f_equal N.to_uint) in Hzero.
  rewrite DecimalN.Unsigned.to_of in Hzero.
  assert (Decimal.unorm h = h) as Hn by (by destruct h). rewrite Hn in Hzero.
  subst h. done.
Qed.

Lemma length_app_zeros (ds : string) (n : nat) :
  String.length (ds +:+ Str.zeros n) = (String.length ds + n)%nat.
Proof.
  induction ds as [|c ds IH]; simpl; [|by rewrite IH].
  induction n as [|n IH]; simpl; [done|by f_equal].
Qed.

(** The digits of a positive number: the significant part, which prints
    back as itself, followed by the trailing zeros. *)
Lemma digits_split (s : N) :
  s ≠ 0%N →
  ∃ ds zeros,
    Str.trim_zeros (Number.digits s) = (ds, zeros)
    ∧ Number.digits s = ds +:+ Str.zeros zeros
    ∧ Str.trim_zeros ds = (ds, O)
    ∧ Number.digits (of_digits ds) = ds
    ∧ of_digits ds ≠ 0%N.
Proof.
  destruct s as [|p]; [done|]. intros _.
  pose proof (to_uint_leading p) as Hlead.
  assert (Hdigits : Number.digits (Npos p) = NilEmpty.string_of_uint (Pos.to_uint p)).
  { unfold Number.digits. simpl. by destruct (Pos.to_uint p). }
  destruct (Str.trim_zeros (Number.digits (Npos p))) as [ds zeros] eqn:Htrim.
  destruct (trim_zeros_spec _ _ _ Htrim) as [Hsplit Hds].
  exists ds, zeros. split_and!; [done|done|done|..].
  all: pose proof (NilEmpty.usu (Pos.to_uint p)) as Hu;
    rewrite <- Hdigits, Hsplit in Hu;
    destruct (uint_of_prefix _ _ _ Hu) as [h Hh];
    apply (digits_of_digits ds h Hh), (string_leading ds h Hh);
    apply leading_string in Hlead; rewrite <- Hdigits, Hsplit in Hlead;
    destruct ds as [|c ds]; [|done];
    by destruct zeros as [|n]; simpl in Hlead; [|destruct Hlead].
Qed.

(** A non-zero whole number of at most 21 digits is printed as its
    digits, with the sign in front. *)
Lemma toString_whole (negative : bool) (s : N) :
  s ≠ 0%N → (String.length (Number.digits s) ≤ 21)%nat →
  toString (finite negative s 0)
  = (if negative then "-" else EmptyString) +:+ Number.digits s.
Proof.
  intros Hs Hlen.
  destruct (digits_split s Hs) as (ds & zeros & Htrim & Hsplit & Hds & Hprint & Hnz).
  apply N.eqb_neq in Hs, Hnz.
  unfold finite. rewrite Hs. unfold significand. rewrite Htrim.
  unfold toString. rewrite Hnz. unfold significand. rewrite Hprint, Hds.
  unfold print_decimal.
  rewrite Hsplit, length_app_zeros in Hlen. rewrite Hsplit.
  set (k := Z.of_nat (String.length ds)).
  set (n := (0 + Z.of_nat zeros + Z.of_nat 0 + k)%Z).
  assert ((k <=? n)%Z && (n <=? 21)%Z = true) as ->.
  { apply andb_true_iff. split; apply Z.leb_le; lia. }
  do 3 f_equal. subst n k. lia.
Qed.

(** On a string that starts with a digit other than 0, [parseInt] has
    nothing to trim and stays in radix 10. *)
Lemma parseInt_leading (negative : bool) (ds : string) :
  leading_char ds →
  parseInt ((if negative then "-" else EmptyString) +:+ ds)
  = match parse_digits 10 ds None with
    | Some z => finite negative z 0
    | None => NaN
    end.
Proof.
  destruct ds as [|c ds]; [done|]. intros [Hdigit Hc].
  destruct c as [[|] [|] [|] [|] [|] [|] [|] [|]]; try discriminate Hdigit;
    try done; destruct negative; reflexivity.
Qed.

(** [parseInt] reads the digits of a non-zero number, with or without
    sign, as that number. *)
Lemma parseInt_digits (negative : bool) (s : N) :
  s ≠ 0%N →
  parseInt ((if negative then "-" else EmptyString) +:+ Number.digits s)
  = finite negative s 0.
Proof.
  destruct s as [|p]; [done|]. intros _.
  pose proof (to_uint_leading p) as Hlead.
  assert (Hdigits : Number.digits (Npos p) = NilEmpty.string_of_uint (Pos.to_uint p)).
  { unfold Number.digits. simpl. by destruct (Pos.to_uint p). }
  rewrite Hdigits, parseInt_leading by by apply leading_string.
  rewrite parse_digits_uint by by destruct (Pos.to_uint p).
  unfold N.of_uint. by rewrite DecimalPos.Unsigned.of_to.
Qed.

(** A number is at least [10^(d - 1)] when it has [d] digits. *)
Lemma of_uint_acc_lower (u : Decimal.uint) : ∀ a : positive,
  (Npos a * 10 ^ N.of_nat (String.length (NilEmpty.string_of_uint u))
   ≤ Npos (Pos.of_uint_acc u a))%N.
Proof.
  induction u as [|u IH|u IH|u IH|u IH|u IH|u IH|u IH|u IH|u IH|u IH];
    intros a; [simpl; lia|..];
    cbn [NilEmpty.string_of_uint String.length Pos.of_uint_acc];
    rewrite Nat2N.inj_succ, N.pow_succ_r';
    (etransitivity; [|apply IH]);
    rewrite N.mul_assoc; apply N.mul_le_mono_r; lia.
Qed.

Lemma digits_length (s : N) :
  (s < 10 ^ 21)%N → (String.length (Number.digits s) ≤ 21)%nat.
Proof.
  destruct s as [|p]; [simpl; lia|]. intros Hs.
  pose proof (to_uint_leading p) as Hlead.
  pose proof (DecimalPos.Unsigned.of_to p) as Hp.
  assert (Hdigits : Number.digits (Npos p) = NilEmpty.string_of_uint (Pos.to_uint p)).
  { unfold Number.digits. simpl. by destruct (Pos.to_uint p). }
  rewrite Hdigits.
  assert (Hlow : ∀ (u : Decimal.uint) (a : positive),
            Npos (Pos.of_uint_acc u a) = Npos p →
            (String.length (NilEmpty.string_of_uint u) < 21)%nat).
  { intros u a Hu. pose proof (of_uint_acc_lower u a) as Hle. rewrite Hu in Hle.
    assert (10 ^ N.of_nat (String.length (NilEmpty.string_of_uint u)) < 10 ^ 21)%N
      as Hpow by (eapply N.le_lt_trans; [|exact Hs]; nia).
    apply N.pow_lt_mono_r_iff in Hpow; lia. }
  destruct (Pos.to_uint p) as [|u|u|u|u|u|u|u|u|u|u]; try done;
    simpl in Hp; apply Hlow in Hp; simpl; lia.
Qed.

Lemma digit_string_cons c s :
  digit_string (String c s) ↔ Str.is_digit c = true ∧ digit_string s.
Proof.
  unfold digit_string. simpl. split.
  - intros [u Hu]. destruct (NilEmpty.uint_of_string s) as [u'|]; [|done].
    split; [|by eexists].
    destruct c as [[|] [|] [|] [|] [|] [|] [|] [|]]; done.
  - intros [Hc [u ->]].
    destruct c as [[|] [|] [|] [|] [|] [|] [|] [|]]; try done; by eexists.
Qed.

Lemma digit_string_app a b :
  digit_string (a +:+ b) ↔ digit_string a ∧ digit_string b.
Proof.
  induction a as [|c a IH].
  - split; [intros H; split; [by eexists|done]|by intros [_ H]].
  - change (String c a +:+ b) with (String c (a +:+ b)).
    rewrite !digit_string_cons, IH. tauto.
Qed.

Lemma digit_string_digits n : digit_string (digits n).
Proof.
  unfold digits, digit_string.
  destruct (NilZero.usu_gen (N.to_uint n)) as [H|H];
    (destruct (NilZero.string_of_uint (N.to_uint n)); [done|]);
    simpl in H |- *; rewrite H; by eexists.
Qed.

Lemma digit_string_zeros n : digit_string (Str.zeros n).
Proof.
  induction n as [|n IH]; [by eexists|]. by apply digit_string_cons.
Qed.

Lemma digit_string_take n s : digit_string s → digit_string (Str.take n s).
Proof.
  revert s. induction n as [|n IH]; intros [|c s]; simpl; try by eexists.
  rewrite !digit_string_cons. intros [? ?]. auto.
Qed.

Lemma digit_string_drop n s : digit_string s → digit_string (Str.drop n s).
Proof.
  revert s. induction n as [|n IH]; intros [|c s]; simpl; try done.
  rewrite digit_string_cons. intros [? ?]. auto.
Qed.

Lemma take_drop n s : Str.take n s +:+ Str.drop n s = s.
Proof.
  revert s. induction n as [|n IH]; intros [|c s]; try done.
  change (String c (Str.take n s +:+ Str.drop n s) = String c s).
  by rewrite IH.
Qed.

Lemma length_take n s :
  (n ≤ String.length s)%nat → String.length (Str.take n s) = n.
Proof.
  revert s. induction n as [|n IH]; intros [|c s]; simpl; try done; try lia.
  intros H. f_equal. apply IH. lia.
Qed.

Lemma length_drop n s :
  String.length (Str.drop n s) = (String.length s - n)%nat.
Proof.
  revert s. induction n as [|n IH]; intros [|c s]; simpl; done.
Qed.

Lemma span_digits a b :
  digit_string a → stops b → Str.span Str.is_digit (a +:+ b) = (a, b).
Proof.
  induction a as [|c a IH]; simpl.
  - intros _. destruct b as [|c b]; simpl; [done|]. by intros ->.
  - rewrite digit_string_cons. intros [-> Ha] Hb. by rewrite IH.
Qed.

(** [of_digits] and [parse_digits] agree on digit strings. *)
Lemma parse_digits_of_digits (x : string) :
  digit_string x → x ≠ EmptyString →
  parse_digits 10 x None = Some (of_digits x).
Proof.
  intros [h Hh] Hx. pose proof (NilEmpty.sus _ _ Hh) as <-.
  assert (h ≠ Decimal.Nil) by (by intros ->).
  rewrite parse_digits_uint by done. unfold of_digits.
  assert (NilZero.uint_of_string (NilEmpty.string_of_uint h) = Some h) as ->; [|done].
  rewrite <- (NilZero.usu h) by done. by destruct h.
Qed.

Lemma digit_value_digit (c : ascii) :
  Str.is_digit c = true → is_Some (digit_value 10 c).
Proof. unfold Str.is_digit, digit_value. intros ->. by eexists. Qed.

Lemma parse_digits_app (a b : string) : ∀ acc,
  digit_string a →
  parse_digits 10 (a +:+ b) acc = parse_digits 10 b (parse_digits 10 a acc).
Proof.
  induction a as [|c a IH]; intros acc; [done|].
  rewrite digit_string_cons. intros [[d Hd]%digit_value_digit Ha].
  change (String c a +:+ b) with (String c (a +:+ b)).
  cbn [parse_digits]. rewrite Hd. by apply IH.
Qed.

Lemma parse_digits_zeros (n : nat) : ∀ v : N,
  parse_digits 10 (Str.zeros n) (Some v) = Some (v * 10 ^ N.of_nat n)%N.
Proof.
  induction n as [|n IH]; intros v.
  - simpl. f_equal. lia.
  - change (parse_digits 10 (Str.zeros (S n)) (Some v))
      with (parse_digits 10 (Str.zeros n) (Some (10 * v + 0)%N)).
    rewrite IH, Nat2N.inj_succ, N.pow_succ_r'. f_equal. lia.
Qed.

(** Zeros after a digit string multiply its value by a power of ten. *)
Lemma of_digits_app_zeros (x : string) (n : nat) :
  digit_string x → x ≠ EmptyString →
  of_digits (x +:+ Str.zeros n) = (of_digits x * 10 ^ N.of_nat n)%N.
Proof.
  intros Hx Hne.
  assert (Hv : parse_digits 10 (x +:+ Str.zeros n) None
               = Some (of_digits x * 10 ^ N.of_nat n)%N).
  { by rewrite parse_digits_app, parse_digits_of_digits, parse_digits_zeros. }
  rewrite parse_digits_of_digits in Hv.
  - by injection Hv.
  - apply digit_string_app. split; [done|apply digit_string_zeros].
  - by destruct x.
Qed.

(** Zeros before a digit string do not change its value. *)
Lemma of_digits_zeros_app (n : nat) (x : string) :
  digit_string x → x ≠ EmptyString →
  of_digits (Str.zeros n +:+ x) = of_digits x.
Proof.
  intros [h Hh] Hx. induction n as [|n IH]; [done|].
  rewrite <- IH. unfold of_digits.
  change (Str.zeros (S n) +:+ x) with (String "0" (Str.zeros n +:+ x)).
  assert (digit_string (Str.zeros n +:+ x)) as [u Hu].
  { apply digit_string_app. split; [apply digit_string_zeros|by exists h]. }
  assert (Hne : Str.zeros n +:+ x ≠ EmptyString) by (destruct n; [done|done]).
  assert (NilZero.uint_of_string (Str.zeros n +:+ x) = Some u) as ->.
  { by destruct (Str.zeros n +:+ x). }
  assert (NilZero.uint_of_string (String "0" (Str.zeros n +:+ x))
          = Some (Decimal.D0 u)) as ->.
  { simpl. by rewrite Hu. }
  done.
Qed.

(** Reading the digits of a number gives the number. *)
Lemma of_digits_digits (n : N) : of_digits (digits n) = n.
Proof.
  unfold of_digits, digits.
  pose proof (DecimalN.Unsigned.of_to n) as Hn.
  destruct (N.to_uint n) as [|u|u|u|u|u|u|u|u|u|u] eqn:Hu;
    [by rewrite <- Hn|..]; by rewrite NilZero.usu.
Qed.

(** A significand that is not a multiple of ten has no trailing zero
    digit. *)
Lemma trim_zeros_digits (s : N) :
  s ≠ 0%N → (s mod 10 ≠ 0)%N →
  Str.trim_zeros (digits s) = (digits s, O).
Proof.
  intros Hs Hmod.
  destruct (digits_split s Hs) as (ds & zeros & Htrim & Hsplit & Hds & Hprint & Hnz).
  assert (Hvalue : s = (of_digits ds * 10 ^ N.of_nat zeros)%N).
  { rewrite <- of_digits_app_zeros, <- Hsplit.
    - by rewrite of_digits_digits.
    - rewrite <- Hprint. apply digit_string_digits.
    - intros ->. by rewrite <- Hprint in Hnz. }
  destruct zeros as [|n].
  - rewrite Htrim, Hsplit. f_equal. clear.
    induction ds as [|c ds IH]; [done|].
    change (String c ds = String c (ds +:+ Str.zeros 0)). by rewrite <- IH.
  - exfalso. apply Hmod. rewrite Hvalue, Nat2N.inj_succ, N.pow_succ_r'.
    apply N.Lcm0.mod_divide. exists (of_digits ds * 10 ^ N.of_nat n)%N. lia.
Qed.

Lemma append_nil_r (s : string) : s +:+ EmptyString = s.
Proof.
  induction s as [|c s IH]; [done|].
  change (String c (s +:+ EmptyString) = String c s). by rewrite IH.
Qed.

Lemma trim_zeros_zeros (n : nat) : Str.trim_zeros (Str.zeros n) = (EmptyString, n).
Proof.
  induction n as [|n IH]; [done|].
  change (Str.zeros (S n)) with (String "0" (Str.zeros n)).
  cbn [Str.trim_zeros]. by rewrite IH.
Qed.

Lemma trim_zeros_app (r : string) (n : nat) :
  r ≠ EmptyString → Str.trim_zeros r = (r, O) →
  Str.trim_zeros (r +:+ Str.zeros n) = (r, n).
Proof.
  induction r as [|c r IH]; [done|]. intros _.
  change (String c r +:+ Str.zeros n) with (String c (r +:+ Str.zeros n)).
  cbn [Str.trim_zeros].
  destruct r as [|c' r].
  - change (EmptyString +:+ Str.zeros n) with (Str.zeros n).
    rewrite trim_zeros_zeros. cbn [Str.trim_zeros].
    destruct (Ascii.eqb c "0"); [done|]. by intros _.
  - destruct (Str.trim_zeros (String c' r)) as [[|k0 kept] m] eqn:Hr.
    + by destruct (Ascii.eqb c "0").
    + intros [= -> -> ->]. by rewrite IH.
Qed.

(** A non-zero significand that is not a multiple of ten is in canonical
    form already. *)
Lemma finite_canonical (negative : bool) (s : N) (e : Z) :
  s ≠ 0%N → (s mod 10 ≠ 0)%N → finite negative s e = Finite negative s e.
Proof.
  intros Hs Hmod. unfold finite, significand.
  rewrite (trim_zeros_digits s Hs Hmod), of_digits_digits, Z.add_0_r.
  by apply N.eqb_neq in Hs as ->.
Qed.

Lemma digits_leading (s : N) : s ≠ 0%N → leading_char (digits s).
Proof.
  destruct s as [|p]; [done|]. intros _.
  pose proof (to_uint_leading p) as Hlead.
  unfold digits. simpl. by destruct (Pos.to_uint p).
Qed.

(** The digits of [s * 10^e] are those of [s] followed by [e] zeros. *)
Lemma digits_scale (s : N) (e : nat) :
  s ≠ 0%N →
  digits (s * 10 ^ N.of_nat e) = digits s +:+ Str.zeros e.
Proof.
  intros Hs. pose proof (digits_leading s Hs) as Hlead.
  assert (Hx : digit_string (digits s +:+ Str.zeros e)).
  { apply digit_string_app. split; [apply digit_string_digits|apply digit_string_zeros]. }
  destruct Hx as [h Hh].
  rewrite <- (of_digits_digits s) at 1.
  rewrite <- of_digits_app_zeros;
    [|apply digit_string_digits|by destruct (digits s)].
  apply (digits_of_digits _ h Hh), (string_leading _ h Hh).
  by destruct (digits s).
Qed.

Lemma finite_scale (negative : bool) (s : N) (e : Z) :
  s ≠ 0%N → (s mod 10 ≠ 0)%N → (0 ≤ e)%Z →
  finite negative (s * 10 ^ Z.to_N e) 0 = Finite negative s e.
Proof.
  intros Hs Hmod He. unfold finite, significand.
  assert ((s * 10 ^ Z.to_N e)%N ≠ 0%N) as Hne.
  { apply N.neq_mul_0. split; [done|]. apply N.pow_nonzero. lia. }
  apply N.eqb_neq in Hne as ->.
  replace (Z.to_N e) with (N.of_nat (Z.to_nat e)) by lia.
  rewrite digits_scale by done.
  rewrite trim_zeros_app;
    [|by pose proof (digits_leading s Hs); destruct (digits s)
     |by apply trim_zeros_digits].
  rewrite of_digits_digits. f_equal. lia.
Qed.

Lemma digits_nonempty (n : N) : digits n ≠ EmptyString.
Proof.
  unfold digits. by destruct (N.to_uint n).
Qed.

(** The exponent that [print_decimal] writes is read back. *)
Lemma exponent_part_printed (x : Z) :
  exponent_part ("e" +:+ (if (x <? 0)%Z then "-" else "+")
                     +:+ digits (Z.abs_N x)) = x.
Proof.
  assert (Hspan : Str.span Str.is_digit (digits (Z.abs_N x))
                  = (digits (Z.abs_N x), EmptyString)).
  { rewrite <- (append_nil_r (digits (Z.abs_N x))) at 1.
    by apply span_digits; [apply digit_string_digits|]. }
  assert (Hne : String.eqb (digits (Z.abs_N x)) EmptyString = false).
  { apply String.eqb_neq, digits_nonempty. }
  destruct (Z.ltb_spec x 0);
    [change ("e" +:+ "-" +:+ digits (Z.abs_N x))
       with (String "e" (String "-" (digits (Z.abs_N x))))
    |change ("e" +:+ "+" +:+ digits (Z.abs_N x))
       with (String "e" (String "+" (digits (Z.abs_N x))))];
    unfold exponent_part;
    cbn -[digits of_digits Str.span String.eqb];
    rewrite Hspan, Hne, of_digits_digits; lia.
Qed.

(** Reading [int.frac] followed by something that is not a digit. *)
Lemma decimal_literal_fraction negative int frac rest :
  digit_string int → digit_string frac → stops rest →
  int +:+ frac ≠ EmptyString →
  decimal_literal negative (int +:+ "." +:+ frac +:+ rest)
  = finite negative (of_digits (int +:+ frac))
      (exponent_part rest - Z.of_nat (String.length frac)).
Proof.
  intros Hint Hfrac Hrest Hne. unfold decimal_literal.
  rewrite span_digits by done.
  change ("." +:+ frac +:+ rest) with (String "." (frac +:+ rest)).
  cbn iota. rewrite span_digits by done.
  by apply String.eqb_neq in Hne as ->.
Qed.

(** Reading digits followed by something that is neither a digit nor a
    point. *)
Lemma decimal_literal_integer negative int rest :
  digit_string int → stops rest → int ≠ EmptyString →
  match rest with String "." _ => False | _ => True end →
  decimal_literal negative (int +:+ rest)
  = finite negative (of_digits int) (exponent_part rest).
Proof.
  intros Hint Hrest Hne Hpoint. unfold decimal_literal.
  rewrite span_digits by done.
  assert (match rest with
          | String "." r => Str.span Str.is_digit r
          | _ => (EmptyString, rest)
          end = (EmptyString, rest)) as ->.
  { destruct rest as [|c r]; [done|].
    destruct c as [[|] [|] [|] [|] [|] [|] [|] [|]]; done. }
  rewrite append_nil_r. apply String.eqb_neq in Hne as ->.
  f_equal. simpl. lia.
Qed.

Lemma length_app (a b : string) :
  String.length (a +:+ b) = (String.length a + String.length b)%nat.
Proof.
  induction a as [|c a IH]; [done|].
  change (S (String.length (a +:+ b)) = S (String.length a + String.length b)).
  by rewrite IH.
Qed.

Lemma length_zeros (n : nat) : String.length (Str.zeros n) = n.
Proof. induction n as [|n IH]; [done|]. simpl. by rewrite IH. Qed.

(** A number with a fractional part, printed and read back as a decimal
    literal. *)
Lemma decimal_literal_print (negative : bool) (s : N) (e : Z) :
  s ≠ 0%N → (s mod 10 ≠ 0)%N → (e < 0)%Z →
  decimal_literal negative (print_decimal (digits s) e)
  = Finite negative s e.
Proof.
  intros Hs Hmod He.
  rewrite <- (finite_canonical negative s e Hs Hmod).
  pose proof (digit_string_digits s) as Hdigits.
  pose proof (digits_nonempty s) as Hne.
  pose proof (of_digits_digits s) as Hvalue.
  unfold print_decimal.
  set (D := digits s) in *.
  set (k := Z.of_nat (String.length D)).
  set (n := (e + k)%Z).
  assert (Hk : (1 ≤ k)%Z) by (subst k; destruct D; [done|simpl; lia]).
  assert ((k <=? n)%Z = false) as -> by (apply Z.leb_gt; lia).
  cbn [andb].
  destruct ((0 <? n)%Z && (n <=? 21)%Z) eqn:HA.
  { (* digits, point, digits *)
    apply andb_true_iff in HA as [Hn%Z.ltb_lt _].
    rewrite <- (append_nil_r (Str.drop (Z.to_nat n) D)).
    rewrite decimal_literal_fraction;
      [|by apply digit_string_take|by apply digit_string_drop|done
       |by rewrite take_drop].
    rewrite take_drop, Hvalue. f_equal.
    rewrite length_drop. change (exponent_part EmptyString) with 0%Z. lia. }
  destruct ((-6 <? n)%Z && (n <=? 0)%Z) eqn:HB.
  { (* zero, point, zeros, digits *)
    apply andb_true_iff in HB as [_ Hn%Z.leb_le].
    change ("0." +:+ Str.zeros (Z.to_nat (- n)) +:+ D)
      with ("0" +:+ "." +:+ (Str.zeros (Z.to_nat (- n)) +:+ D)).
    rewrite <- (append_nil_r (Str.zeros (Z.to_nat (- n)) +:+ D)).
    rewrite decimal_literal_fraction;
      [|by eexists
       |apply digit_string_app; split; [apply digit_string_zeros|done]
       |done|done].
    change ("0" +:+ Str.zeros (Z.to_nat (- n)) +:+ D)
      with (Str.zeros (S (Z.to_nat (- n))) +:+ D).
    rewrite of_digits_zeros_app, Hvalue by done. f_equal.
    rewrite length_app, length_zeros. change (exponent_part EmptyString) with 0%Z.
    lia. }
  destruct (k =? 1)%Z eqn:Hk1.
  { (* one digit and an exponent *)
    apply Z.eqb_eq in Hk1.
    rewrite decimal_literal_integer; [|done|done|done|done].
    rewrite exponent_part_printed, Hvalue. f_equal. lia. }
  (* digit, point, digits, and an exponent *)
  apply Z.eqb_neq in Hk1.
  rewrite decimal_literal_fraction;
    [|by apply digit_string_take|by apply digit_string_drop|done
     |by rewrite take_drop].
  rewrite take_drop, exponent_part_printed, Hvalue. f_equal.
  rewrite length_drop. lia.
Qed.

(** What [print_decimal] writes starts with a digit. *)
Lemma print_decimal_first (ds : string) (e : Z) :
  leading_char ds →
  ∃ c rest, print_decimal ds e = String c rest ∧ Str.is_digit c = true.
Proof.
  destruct ds as [|c0 ds]; [done|]. intros [Hc0 _].
  unfold print_decimal.
  set (k := Z.of_nat (String.length (String c0 ds))).
  set (n := (e + k)%Z).
  destruct ((k <=? n)%Z && (n <=? 21)%Z); [by eexists _, _|].
  destruct ((0 <? n)%Z && (n <=? 21)%Z) eqn:HA.
  { apply andb_true_iff in HA as [Hn%Z.ltb_lt _].
    destruct (Z.to_nat n) as [|m] eqn:Hm; [lia|]. by eexists _, _. }
  destruct ((-6 <? n)%Z && (n <=? 0)%Z); [by eexists _, _|].
  destruct (k =? 1)%Z; by eexists _, _.
Qed.

(** On a string that starts with a digit, [parseFloat] has nothing to trim
    and reads a decimal literal. *)
Lemma parseFloat_digit_first (negative : bool) (c : ascii) (rest : string) :
  Str.is_digit c = true →
  parseFloat ((if negative then "-" else EmptyString) +:+ String c rest)
  = decimal_literal negative (String c rest).
Proof.
  intros Hc.
  destruct c as [[|] [|] [|] [|] [|] [|] [|] [|]]; try discriminate Hc;
    destruct negative; reflexivity.
Qed.

(** A number with a fractional part is not an integer. *)
Lemma isInteger_fraction (negative : bool) (s : N) (e : Z) :
  (s mod 10 ≠ 0)%N → (e < 0)%Z → isInteger (Finite negative s e) = false.
Proof.
  intros Hmod He. simpl. apply orb_false_iff. split; [apply Z.leb_gt; lia|].
  apply N.eqb_neq. intros Hdiv. apply Hmod.
  apply N.Lcm0.mod_divide in Hdiv as [q Hq]. apply N.Lcm0.mod_divide.
  exists (q * 10 ^ (Z.to_N (- e) - 1))%N.
  rewrite Hq. replace (Z.to_N (- e)) with (N.succ (Z.to_N (- e) - 1)) at 1 by lia.
  rewrite N.pow_succ_r'. lia.
Qed.

(** Printing a faithful number and reading it gives the number back. *)
Lemma number_round_trip (n : number) :
  number_faithful n = true →
  reparsed n = n ∧ truthy_string (toString n) = true.
Proof.
  destruct n as [|[]|negative s e]; [done..|]. unfold number_faithful.
  destruct (N.eqb_spec s 0) as [->|Hs].
  { intros [Hneg ->%Z.eqb_eq]%andb_true_iff. by destruct negative. }
  intros [Hmod%negb_true_iff%N.eqb_neq Hrange]%andb_true_iff.
  destruct (Z.ltb_spec e 0) as [He|He].
  - (* a fractional part: read by [parseFloat] *)
    unfold reparsed. rewrite isInteger_fraction by done.
    unfold toString. apply N.eqb_neq in Hs as Hs'. rewrite Hs'.
    unfold significand. rewrite trim_zeros_digits, Z.add_0_r by done.
    destruct (print_decimal_first (digits s) e (digits_leading s Hs))
      as (c & rest & Hprint & Hc).
    split.
    + rewrite Hprint, parseFloat_digit_first, <- Hprint by done.
      by apply decimal_literal_print.
    + rewrite Hprint. by destruct negative.
  - (* a whole number: read by [parseInt] *)
    simpl in Hrange. apply N.ltb_lt in Hrange.
    rewrite <- (finite_scale negative s e Hs Hmod He).
    assert (Hne : (s * 10 ^ Z.to_N e)%N ≠ 0%N).
    { apply N.neq_mul_0. split; [done|]. apply N.pow_nonzero. lia. }
    pose proof (digits_length _ Hrange) as Hlen.
    unfold reparsed.
    assert (isInteger (finite negative (s * 10 ^ Z.to_N e) 0) = true) as ->.
    { rewrite finite_scale by done. simpl. apply orb_true_iff. left.
      by apply Z.leb_le. }
    rewrite (toString_whole _ _ Hne Hlen), (parseInt_digits _ _ Hne).
    split; [done|].
    pose proof (digits_nonempty (s * 10 ^ Z.to_N e)) as Hd.
    destruct negative; [reflexivity|].
    change (truthy_string (digits (s * 10 ^ Z.to_N e)) = true).
    by destruct (digits _).
Qed.

(** Trailing zeros are all counted. *)
Lemma trim_zeros_count (y : string) (n : nat) :
  (n ≤ snd (Str.trim_zeros (y +:+ Str.zeros n)))%nat.
Proof.
  induction y as [|c y IH].
  - change (EmptyString +:+ Str.zeros n) with (Str.zeros n).
    by rewrite trim_zeros_zeros.
  - change (String c y +:+ Str.zeros n) with (String c (y +:+ Str.zeros n)).
    cbn [Str.trim_zeros].
    destruct (Str.trim_zeros (y +:+ Str.zeros n)) as [[|k0 kept] m];
      [destruct (Ascii.eqb c "0")|]; simpl in *; lia.
Qed.

(** A significand whose digits have no trailing zero is not a multiple of
    ten. *)
Lemma trimmed_not_tenfold (s : N) :
  s ≠ 0%N → Str.trim_zeros (digits s) = (digits s, O) →
  (s mod 10 ≠ 0)%N.
Proof.
  intros Hs Htrim Hmod. apply N.Lcm0.mod_divide in Hmod as [q Hq].
  assert (q ≠ 0%N) by lia.
  pose proof (trim_zeros_count (digits q) 1) as Hcount.
  rewrite <- (digits_scale q 1), N.pow_1_r, <- Hq, Htrim in Hcount by done.
  simpl in Hcount. lia.
Qed.

(** A non-zero whole number below [10^21] is faithful. *)
Lemma finite_whole_faithful (negative : bool) (s : N) :
  s ≠ 0%N → (s < 10 ^ 21)%N → number_faithful (finite negative s 0) = true.
Proof.
  intros Hs Hrange.
  destruct (digits_split s Hs) as (ds & zeros & Htrim & Hsplit & Hds & Hprint & Hnz).
  assert (Hvalue : s = (of_digits ds * 10 ^ N.of_nat zeros)%N).
  { rewrite <- of_digits_app_zeros, <- Hsplit.
    - by rewrite of_digits_digits.
    - rewrite <- Hprint. apply digit_string_digits.
    - intros ->. by rewrite <- Hprint in Hnz. }
  unfold finite, significand. apply N.eqb_neq in Hs as Hs'. rewrite Hs', Htrim.
  unfold number_faithful. apply N.eqb_neq in Hnz as Hnz'. rewrite Hnz'.
  apply andb_true_iff. split.
  - apply negb_true_iff, N.eqb_neq, trimmed_not_tenfold; [done|].
    by rewrite Hprint.
  - apply orb_true_iff. right. apply N.ltb_lt.
    replace (Z.to_N (0 + Z.of_nat zeros)) with (N.of_nat zeros) by lia.
    by rewrite <- Hvalue.
Qed.

(** Every integer below [10^21] in magnitude is a faithful number. *)
Lemma of_Z_faithful (z : Z) :
  (Z.abs z < 10 ^ 21)%Z → number_faithful (of_Z z) = true.
Proof.
  intros Hz. destruct (decide (z = 0%Z)) as [->|Hnz]; [done|].
  apply finite_whole_faithful; lia.
Qed.

End NumberFacts.

(** ** Decoding returns on well-formed wire values *)

Section FieldInduction.

Lemma Field_size_fields (fields : gmap string Field) key f :
  fields !! key = Some f →
  (Field_size f ≤ map_fold (λ _ f n, Field_size f + n) 0 fields)%nat.
Proof.
  intros H. rewrite (map_fold_delete_L _ _ key f fields); [lia| |done].
  intros. lia.
Qed.

Lemma Field_size_values (values : list Field) f :
  f ∈ values → (Field_size f ≤ foldr (λ f n, Field_size f + n) 0 values)%nat.
Proof.
  induction 1 as [|? ? ? ? IH]; simpl; lia.
Qed.

(** Induction on wire values, with the hypothesis for every field of a map
    and every element of an array. *)
Lemma Field_nested_ind (P : Field → Prop) :
  P FNull →
  (∀ iv dv bv sv mapValue arrayValue,
     (∀ fields, mapValue = Some (Some fields) → map_Forall (λ _, P) fields) →
     (∀ values, arrayValue = Some (Some values) → Forall P values) →
     P (FObject iv dv bv sv mapValue arrayValue)) →
  ∀ field, P field.
Proof.
  intros Hnull Hobj.
  assert (H : ∀ n field, (Field_size field < n)%nat → P field).
  { induction n as [|n IH]; intros field Hn; [lia|].
    destruct field as [|iv dv bv sv mapValue arrayValue]; [done|].
    simpl in Hn. apply Hobj.
    - intros fields -> key f Hf. apply IH.
      pose proof (Field_size_fields _ _ _ Hf). lia.
    - intros values ->. apply Forall_forall. intros f Hf. apply IH.
      pose proof (Field_size_values _ _ Hf). lia. }
  intros field. by apply (H (S (Field_size field))), Nat.lt_succ_diag_r.
Qed.

Lemma null_free_fields (fields : gmap string Field) :
  map_fold (λ _ f b, null_free f && b) true fields = true →
  map_Forall (λ _ f, null_free f = true) fields.
Proof.
  apply (map_fold_weak_ind
           (λ b m, b = true → map_Forall (λ _ f, null_free f = true) m)).
  - intros _. apply map_Forall_empty.
  - intros key f m b Hkey IH [Hf Hb]%andb_true_iff.
    apply map_Forall_insert; [done|]. auto.
Qed.

(** [parseMap] returns when the decoder returns on every field. *)
Lemma parseMap_with_returns parse (fields : gmap string Field) :
  map_Forall (λ _ f, is_Some (parse f)) fields →
  is_Some (parseMap_with parse (Some fields)).
Proof.
  unfold parseMap_with.
  apply (map_fold_weak_ind
           (λ r m, map_Forall (λ _ f, is_Some (parse f)) m → is_Some r)).
  - by eexists.
  - intros key f m r Hkey IH [[v Hv] Hm]%map_Forall_insert; [|done].
    destruct (IH Hm) as [result ->]. rewrite Hv. simpl. by eexists.
Qed.

Lemma null_free_FObject iv dv bv sv mapValue arrayValue :
  null_free (FObject iv dv bv sv mapValue arrayValue)
  = match mapValue with
    | Some (Some fields) => map_fold (λ _ f b, null_free f && b) true fields
    | _ => true
    end
    && match arrayValue with
       | Some (Some values) => forallb null_free values
       | _ => true
       end.
Proof. reflexivity. Qed.

(** Decoding returns on every wire value without [null]. *)
Lemma parseField_returns field :
  null_free field = true → is_Some (parseField field).
Proof.
  induction field as [|iv dv bv sv mapValue arrayValue IHmap IHarr]
    using Field_nested_ind; [done|].
  rewrite null_free_FObject. intros [Hmap Harr]%andb_true_iff. simpl.
  destruct (populated truthy_numeral iv); [by eexists|].
  destruct (populated truthy_numeral dv); [by eexists|].
  destruct (populated truthy_boolean bv); [by eexists|].
  destruct (populated truthy_string sv); [by eexists|].
  destruct mapValue as [[fields|]|].
  - destruct (parseMap_with_returns parseField fields) as [m ->]; [|by eexists].
    intros key f Hf. apply (IHmap fields eq_refl key f Hf).
    by apply (null_free_fields fields Hmap key f).
  - by eexists.
  - destruct arrayValue as [[values|]|]; [|by eexists..].
    assert (is_Some (mapM parseField values)) as [vs ->]; [|by eexists].
    specialize (IHarr values eq_refl).
    clear Hmap IHmap. induction values as [|f values IH]; [by eexists|].
    change (null_free f && forallb null_free values = true) in Harr.
    apply andb_true_iff in Harr as [Hf Hvalues].
    apply Forall_cons in IHarr as [IHf IHvalues].
    destruct (IHf Hf) as [v Hv]. destruct (IH IHvalues Hvalues) as [vs Hvs].
    exists (v :: vs). simpl. rewrite Hv. simpl. by rewrite Hvs.
Qed.

Lemma parseMap_returns (fields : option (gmap string Field)) :
  null_free (FObject None None None None (Some fields) None) = true →
  is_Some (parseMap fields).
Proof.
  intros H. apply parseField_returns in H as [v Hv]. simpl in Hv.
  unfold parseMap. destruct (parseMap_with parseField fields); [by eexists|done].
Qed.

End FieldInduction.

(** ** The round trip on faithful values *)

Section RoundTrip.

Lemma Value_size_props (props : gmap string Value) key v :
  props !! key = Some v →
  (Value_size v ≤ map_fold (λ _ v n, Value_size v + n) 0 props)%nat.
Proof.
  intros H. rewrite (map_fold_delete_L _ _ key v props); [lia| |done].
  intros. lia.
Qed.

Lemma Value_size_items (items : list Value) v :
  v ∈ items → (Value_size v ≤ foldr (λ v n, Value_size v + n) 0 items)%nat.
Proof. induction 1; simpl; lia. Qed.

(** Induction on native values, with the hypothesis for every element of a
    list and every property of an object. *)
Lemma Value_nested_ind (P : Value → Prop) :
  P VUndefined → P VNull → (∀ b, P (VBoolean b)) → (∀ n, P (VNumber n)) →
  (∀ s, P (VString s)) → (∀ d, P (VSymbol d)) →
  (∀ items, Forall P items → P (VArray items)) →
  (∀ kind props, map_Forall (λ _, P) props → P (VObject kind props)) →
  (∀ z, P (VBigInt z)) →
  ∀ value, P value.
Proof.
  intros Hu Hn Hb Hnum Hs Hsym Harr Hobj Hbig.
  assert (H : ∀ n value, (Value_size value < n)%nat → P value).
  { induction n as [|n IH]; intros value Hn'; [lia|].
    destruct value as [| | | | | |items|kind props|z]; auto.
    - apply Harr, Forall_forall. intros v Hv. apply IH.
      pose proof (Value_size_items _ _ Hv). simpl in Hn'. lia.
    - apply Hobj. intros key v Hv. apply IH.
      pose proof (Value_size_props _ _ _ Hv). simpl in Hn'. lia. }
  intros value. by apply (H (S (Value_size value))), Nat.lt_succ_diag_r.
Qed.

(** What [parseMap] returns: the decoded value under every key of [fields]
    other than ["__proto__"], and nothing else. *)
Lemma parseMap_with_lookup parse (fields : gmap string Field) :
  map_Forall (λ _ f, is_Some (parse f)) fields →
  ∃ result,
    parseMap_with parse (Some fields) = Some result
    ∧ ∀ key, result !! key
             = if String.eqb key "__proto__" then None
               else fields !! key ≫= parse.
Proof.
  unfold parseMap_with.
  apply (map_fold_weak_ind
           (λ r m, map_Forall (λ _ f, is_Some (parse f)) m →
                   ∃ result, r = Some result
                     ∧ ∀ key, result !! key
                              = if String.eqb key "__proto__" then None
                                else m !! key ≫= parse)).
  - intros _. exists ∅. split; [done|]. intros key.
    rewrite !lookup_empty. by destruct (String.eqb key "__proto__").
  - intros key f m r Hkey IH [[v Hv] Hm]%map_Forall_insert; [|done].
    destruct (IH Hm) as (result & -> & Hresult). rewrite Hv. simpl.
    eexists. split; [reflexivity|]. intros key'.
    destruct (String.eqb key "__proto__") eqn:Hproto.
    + apply String.eqb_eq in Hproto as ->. rewrite Hresult.
      destruct (String.eqb key' "__proto__") eqn:Hkey'; [done|].
      apply String.eqb_neq in Hkey'. by rewrite lookup_insert_ne.
    + destruct (decide (key = key')) as [<-|Hne].
      * rewrite !lookup_insert_eq, Hproto. by rewrite <- Hv.
      * rewrite !lookup_insert_ne by done. apply Hresult.
Qed.

Lemma faithful_props (props : gmap string Value) :
  map_fold (λ key v b, negb (String.eqb key "__proto__") && faithful v && b)
    true props = true →
  map_Forall (λ key v, String.eqb key "__proto__" = false ∧ faithful v = true)
    props.
Proof.
  apply (map_fold_weak_ind
           (λ b m, b = true →
                   map_Forall (λ key v, String.eqb key "__proto__" = false
                                        ∧ faithful v = true) m)).
  - intros _. apply map_Forall_empty.
  - intros key v m b Hkey IH [[Hk Hv]%andb_true_iff Hb]%andb_true_iff.
    apply map_Forall_insert; [done|]. split; [|auto].
    split; [by apply negb_true_iff|done].
Qed.

Lemma faithful_VObject kind props :
  faithful (VObject kind props) = true →
  kind = Plain
  ∧ map_Forall (λ key v, String.eqb key "__proto__" = false ∧ faithful v = true)
      props.
Proof.
  destruct kind; [|done..]. intros H. split; [done|]. by apply faithful_props.
Qed.

Lemma faithful_VArray items :
  faithful (VArray items) = true → Forall (λ v, faithful v = true) items.
Proof.
  change (faithful (VArray items)) with (forallb faithful items).
  intros H. apply Forall_forall. intros v Hv.
  rewrite forallb_forall in H. apply H. by apply list_elem_of_In.
Qed.

(** X2.  The round trip on the values that survive it.  For every faithful
    value -- [true], a non-empty string, a faithful number, or a list or plain
    object of faithful values without a ["__proto__"] property --
    [parseField(createField(value))] returns the value itself. *)
Lemma round_trip_faithful (value : Value) :
  faithful value = true → parseField (createField value) = Some value.
Proof.
  induction value as [| |b|n|s|d|items IH|kind props IH|z] using Value_nested_ind;
    try done.
  - (* boolean *) simpl. by intros ->.
  - (* number *)
    intros [Hread Hprinted]%number_round_trip.
    unfold reparsed in Hread. simpl.
    destruct (isInteger n); simpl; rewrite Hprinted; simpl; by rewrite Hread.
  - (* string *) intros H. simpl in *. by rewrite H.
  - (* list *)
    intros H%faithful_VArray.
    change (VArray <$> mapM parseField (createField <$> items) = Some (VArray items)).
    assert (mapM parseField (createField <$> items) = Some items) as ->; [|done].
    apply mapM_Some, Forall2_fmap_l, Forall_Forall2_diag.
    rewrite Forall_forall in IH, H. apply Forall_forall. intros v Hv. auto.
  - (* plain object *)
    intros [-> H]%faithful_VObject.
    change (VObject Plain <$> parseMap_with parseField (Some (createField <$> props))
            = Some (VObject Plain props)).
    destruct (parseMap_with_lookup parseField (createField <$> props))
      as (result & -> & Hresult).
    { intros key f. rewrite lookup_fmap.
      destruct (props !! key) as [v|] eqn:Hv; [|done]. intros [= <-].
      rewrite (IH key v Hv); [by eexists|]. by apply (H key v Hv). }
    simpl. f_equal. f_equal. apply map_eq. intros key. rewrite Hresult.
    rewrite lookup_fmap.
    destruct (props !! key) as [v|] eqn:Hv; simpl.
    + destruct (H key v Hv) as [-> Hf]. by apply (IH key v Hv).
    + by destruct (String.eqb key "__proto__").
Qed.

(** A document of the application survives the round trip. *)
Example round_trip_example :
  faithful public_set = true
  ∧ parseField (createField public_set) = Some public_set.
Proof.
  assert (H : faithful public_set = true) by (by vm_compute).
  split; [exact H|]. exact (round_trip_faithful public_set H).
Defined.

(** Every integer below [10^21] in magnitude survives the round trip. *)
Lemma whole_number_round_trip (z : Z) :
  (Z.abs z < 10 ^ 21)%Z →
  parseField (createField (VNumber (of_Z z))) = Some (VNumber (of_Z z)).
Proof.
  intros [Hread Hprinted]%of_Z_faithful%number_round_trip.
  unfold reparsed in Hread. simpl.
  destruct (isInteger (of_Z z)); simpl; rewrite Hprinted; simpl; by rewrite Hread.
Qed.

End RoundTrip.

(** ** Theorems on the codec *)

Section CodecClaims.

(** [createField] in the shape of the source: the chain of tests of lines
    17-23, each with the value it returns. *)
Lemma createField_dispatch (value : Value) :
  if Number_isInteger value then
    ∃ n, value = VNumber n ∧ createField value = IntegerValue (toString n)
  else if String.eqb (typeof value) "number" then
    ∃ n, value = VNumber n ∧ createField value = DoubleValue (toString n)
  else if String.eqb (typeof value) "boolean" then
    ∃ b, value = VBoolean b ∧ createField value = BooleanValue b
  else if String.eqb (typeof value) "string" then
    ∃ s, value = VString s ∧ createField value = StringValue s
  else if instanceof_Array value then
    ∃ items, value = VArray items
             ∧ createField value = ArrayValue (createField <$> items)
  else if instanceof_Object value then
    ∃ kind props, value = VObject kind props
                  ∧ createField value = MapValue (createField <$> props)
  else createField value = FNull.
Proof.
  destruct value as [| | |n| | | |[]|]; simpl; eauto.
  destruct (isInteger n); eauto.
Qed.

(** The specification's example of map decoding. *)
Example parseField_map_example :
  parseField (MapValue {[ "n" := IntegerValue "3"; "s" := StringValue "x" ]})
  = Some (VObject Plain {[ "n" := VNumber (of_Z 3); "s" := VString "x" ]}).
Proof. by vm_compute. Qed.

(** C4.  Numeric tagging on encode.  A number without fractional part is
    encoded as the Integer variant holding [value.toString()]; every other
    number (a number with a fractional part, NaN, an infinity) as the Double
    variant holding [value.toString()].  For an integer below [10^21] in
    magnitude that string is its base-10 form: the decimal digits, after a
    minus sign when it is negative. *)
Theorem createField_tags_numbers :
  (∀ n, no_fraction n → createField (VNumber n) = IntegerValue (toString n))
  ∧ (∀ n, ¬ no_fraction n → createField (VNumber n) = DoubleValue (toString n))
  ∧ (∀ z : Z,
       (Z.abs z < 10 ^ 21)%Z →
       createField (VNumber (of_Z z))
       = IntegerValue ((if (z <? 0)%Z then "-" else EmptyString)
                       +:+ digits (Z.abs_N z))).
Proof.
  split_and!.
  - intros n Hn%isInteger_no_fraction. simpl. by rewrite Hn.
  - intros n Hn. simpl. destruct (isInteger n) eqn:Hi; [|done].
    by apply isInteger_no_fraction in Hi.
  - intros z Hz. simpl.
    assert (isInteger (of_Z z) = true) as ->
      by apply isInteger_no_fraction, of_Z_no_fraction.
    destruct (decide (z = 0%Z)) as [->|Hnz]; [done|].
    unfold of_Z. rewrite toString_whole; [done|lia|apply digits_length; lia].
Qed.

(** The three inputs of the specification's example: [5], [5.5] and [5.0]. *)
Lemma createField_tags_numbers_witness :
  (no_fraction (of_Z 5) ∧ createField (VNumber (of_Z 5)) = IntegerValue "5")
  ∧ (¬ no_fraction (parseFloat "5.5")
     ∧ createField (VNumber (parseFloat "5.5")) = DoubleValue "5.5")
  ∧ (no_fraction (parseFloat "5.0")
     ∧ createField (VNumber (parseFloat "5.0")) = IntegerValue "5").
Proof.
  assert (H5 : no_fraction (of_Z 5)) by (by apply isInteger_no_fraction).
  assert (H55 : ¬ no_fraction (parseFloat "5.5"))
    by (by rewrite <- isInteger_no_fraction).
  assert (H50 : no_fraction (parseFloat "5.0")) by (by apply isInteger_no_fraction).
  split_and!; [done| |done| |done|].
  - exact (proj1 createField_tags_numbers (of_Z 5) H5).
  - exact (proj1 (proj2 createField_tags_numbers) (parseFloat "5.5") H55).
  - exact (proj1 createField_tags_numbers (parseFloat "5.0") H50).
Defined.




(** An [arrayValue] without a [values] property fails the test of line 13:
    it decodes to [null]. *)
Lemma parseField_array_without_values iv dv bv sv :
  populated truthy_numeral iv = None → populated truthy_numeral dv = None →
  populated truthy_boolean bv = None → populated truthy_string sv = None →
  parseField (FObject iv dv bv sv None (Some None)) = Some VNull.
Proof. intros H1 H2 H3 H4. simpl. by rewrite H1, H2, H3, H4. Qed.

(** C10.  Falsy payloads.  A wire value whose only tag is [booleanValue]
    holding [false], or [stringValue] holding the empty string, decodes to
    [null].  More generally such a tag is treated exactly as an absent one,
    whatever else the object holds. *)
Theorem parseField_falsy_payload_is_null :
  parseField (BooleanValue false) = Some VNull
  ∧ parseField (StringValue EmptyString) = Some VNull
  ∧ (∀ iv dv sv mv av,
       parseField (FObject iv dv (Some false) sv mv av)
       = parseField (FObject iv dv None sv mv av))
  ∧ (∀ iv dv bv mv av,
       parseField (FObject iv dv bv (Some EmptyString) mv av)
       = parseField (FObject iv dv bv None mv av)).
Proof. split_and!; reflexivity. Qed.

(** The same holds of a double sent as the JSON number [0]. *)
Example parseField_zero_double :
  parseField (FObject None (Some (NNumber (of_Z 0))) None None None None)
  = Some VNull.
Proof. reflexivity. Qed.

(** C1.  The round trip fails on the code.  [false] and the empty string come
    back as [null]; [null] is encoded as the JavaScript [null], on which
    decoding throws, also when it is nested in a list; the integer [10^21]
    is printed as ["1e+21"], which [parseInt] reads as [1]. *)
Theorem round_trip_fails :
  parseField (createField (VBoolean false)) = Some VNull
  ∧ parseField (createField (VString EmptyString)) = Some VNull
  ∧ parseField (createField VNull) = None
  ∧ parseField (createField (VArray [VNull])) = None
  ∧ (createField (VNumber (Finite false 1 21)) = IntegerValue "1e+21"
     ∧ parseField (createField (VNumber (Finite false 1 21)))
       = Some (VNumber (Finite false 1 0))).
Proof. split_and!; reflexivity. Qed.



(** C8.  Batch-fetch omission.  For a response in which the fields of every
    found document are JSON objects, [getDocumentsForIds] returns exactly the
    decoded found documents, in response order: one per entry with a [found]
    property and nothing for the other entries.  The result has as many
    elements as there are found entries, and none of them is [null] or
    [undefined]. *)
Theorem getDocumentsForIds_omits_missing (json : list BatchEntry) :
  Forall (λ entry, ∀ doc, found entry = Some doc → fields_null_free doc = true)
         json →
  ∃ docs,
    getDocumentsForIds json = Some docs
    ∧ Forall2 (λ doc decoded, decodeDocument doc = Some decoded)
        (omap found json) docs
    ∧ length docs = length (filter (λ entry, is_Some (found entry)) json)
    ∧ Forall (λ decoded, decoded ≠ VNull ∧ decoded ≠ VUndefined) docs.
Proof.
  unfold getDocumentsForIds.
  induction json as [|entry json IH]; intros H.
  - exists []. split_and!; by constructor.
  - apply Forall_cons in H as [Hentry Hrest].
    destruct (IH Hrest) as (docs & Hdocs & Hall & Hlen & Hnn). clear IH.
    destruct entry as [[doc|] miss].
    + destruct (parseMap_returns (fields doc) (Hentry doc eq_refl)) as [m Hm].
      assert (Hdec : decodeDocument doc
                = Some (VObject Plain
                    (<["updateTime" := VObject (Date (updateTime doc)) ∅]>
                       (<["createTime" := VObject (Date (createTime doc)) ∅]>
                          (m ∪ {["id" := VString (Str.last_segment "/" (name doc))]})))))
        by (unfold decodeDocument; by rewrite Hm).
      eexists (_ :: docs).
      rewrite filter_cons_True by (simpl; eauto). simpl. simpl in Hdocs.
      rewrite Hdec. simpl. rewrite Hdocs. simpl.
      split_and!; [done|by constructor|by rewrite Hlen|].
      constructor; done.
    + exists docs.
      rewrite filter_cons_False by (simpl; by intros [? ?]). simpl.
      split_and!; done.
Qed.

Lemma getDocumentsForIds_omits_missing_witness :
  Forall (λ entry, ∀ doc, found entry = Some doc → fields_null_free doc = true)
         batch_response
  ∧ ∃ docs,
      getDocumentsForIds batch_response = Some docs
      ∧ Forall2 (λ doc decoded, decodeDocument doc = Some decoded)
          (omap found batch_response) docs
      ∧ length docs = 2
      ∧ Forall (λ decoded, decoded ≠ VNull ∧ decoded ≠ VUndefined) docs.
Proof.
  assert (H : Forall (λ entry, ∀ doc, found entry = Some doc →
                               fields_null_free doc = true) batch_response).
  { repeat constructor; intros doc Hdoc; simplify_eq/=; by vm_compute. }
  split; [exact H|].
  exact (getDocumentsForIds_omits_missing batch_response H).
Defined.

End CodecClaims.

(** ** Store lemmas *)

Section StoreFacts.

Implicit Types (σ : store) (l k : loc) (o : object) (s : shape).

Lemma alloc_eq o σ : alloc o σ = Some (length σ, σ ++ [o]).
Proof. reflexivity. Qed.

Lemma lookup_alloc_old σ o l x : σ !! l = Some x → (σ ++ [o]) !! l = Some x.
Proof. intros H. by apply lookup_app_l_Some. Qed.

Lemma lookup_alloc_new σ o : (σ ++ [o]) !! length σ = Some o.
Proof. by rewrite list_lookup_middle. Qed.

Lemma load_eq σ l o : σ !! l = Some o → load l σ = Some (o, σ).
Proof. unfold load. by intros ->. Qed.

Lemma load_query_eq σ l q :
  σ !! l = Some (QueryObject q) → load_query l σ = Some (q, σ).
Proof. intros H. unfold load_query, bind. by rewrite (load_eq _ _ _ H). Qed.

Lemma update_eq σ l o x :
  σ !! l = Some x → update l o σ = Some ((), <[l := o]> σ).
Proof.
  intros H. unfold update.
  destruct (decide (l < length σ)) as [|Hge]; [done|].
  exfalso. apply Hge. by eapply lookup_lt_Some.
Qed.

Lemma lookup_update_same σ l o x :
  σ !! l = Some x → <[l := o]> σ !! l = Some o.
Proof. intros H. apply list_lookup_insert_eq. by eapply lookup_lt_Some. Qed.

Lemma preserves_refl s σ : preserves s σ σ.
Proof. by intros l o _ H. Qed.

Lemma preserves_trans s σ1 σ2 σ3 :
  preserves s σ1 σ2 → preserves s σ2 σ3 → preserves s σ1 σ3.
Proof. intros H12 H23 l o Hs H. eauto. Qed.

Lemma preserves_alloc s σ o : preserves s σ (σ ++ [o]).
Proof. intros l x _ H. by apply lookup_alloc_old. Qed.

(** Updating an object of one shape preserves the objects of the others. *)
Lemma preserves_update s σ l o x :
  σ !! l = Some x → shape_of x ≠ s → preserves s σ (<[l := o]> σ).
Proof.
  intros Hl Hne k y Hs Hk. rewrite list_lookup_insert_ne; [done|].
  intros ->. congruence.
Qed.

End StoreFacts.

Section Representation.

Implicit Types (σ : store) (l : loc) (xs : list Filter) (os : list Order).

Lemma holds_leaf_preserved σ σ' l x :
  preserves LeafShape σ σ' → holds_leaf σ l x → holds_leaf σ' l x.
Proof. intros H. destruct x; simpl; [|done]. by apply H. Qed.

Lemma Forall2_holds_leaf_preserved σ σ' ls xs :
  preserves LeafShape σ σ' →
  Forall2 (holds_leaf σ) ls xs → Forall2 (holds_leaf σ') ls xs.
Proof.
  intros H Hls. eapply Forall2_impl; [exact Hls|].
  eauto using holds_leaf_preserved.
Qed.

Lemma where_rep_preserved σ σ' w xs :
  preserves LeafShape σ σ' → preserves CompositeShape σ σ' →
  where_rep σ w xs → where_rep σ' w xs.
Proof.
  intros Hleaf Hcomp H.
  destruct xs as [|x [|y xs]]; simpl in *; [done| |].
  - destruct H as (l & -> & H). eauto using holds_leaf_preserved.
  - destruct H as (c & ls & -> & Hc & Hls).
    exists c, ls. split_and!; [done|by apply Hcomp|].
    eauto using Forall2_holds_leaf_preserved.
Qed.

Lemma orderBy_rep_preserved σ σ' a os :
  preserves ArrayShape σ σ' → orderBy_rep σ a os → orderBy_rep σ' a os.
Proof.
  intros Harr H. destruct os as [|o os]; simpl in *; [done|].
  destruct H as (l & -> & H). exists l. split; [done|]. by apply Harr.
Qed.

End Representation.

(** Proves that a store reached by allocations and updates preserves a
    shape, peeling the operations off the target store one at a time. *)
Ltac preserved :=
  lazymatch goal with
  | |- preserves _ ?σ ?σ => apply preserves_refl
  | |- preserves _ _ (_ ++ [_]) =>
      eapply preserves_trans; [|apply preserves_alloc]; preserved
  | |- preserves _ _ (<[_ := _]> _) =>
      eapply preserves_trans;
      [|eapply preserves_update; [eassumption|done]]; preserved
  end.

(** ** Each method keeps the invariant *)

Section Methods.

Implicit Types (σ : store) (this : QueryBuilder.t).
Implicit Types (xs : list Filter) (os : list Order).

Lemma new_represents σ :
  ∃ this σ', QueryBuilder.new σ = Some (this, σ')
             ∧ represents σ' this [] [] None None.
Proof.
  eexists _, _. split; [reflexivity|].
  eexists. split; [apply lookup_alloc_new|]. simpl. done.
Qed.

Lemma where_represents σ this xs os lim off field op value :
  represents σ this xs os lim off →
  ∃ σ', QueryBuilder.where_ this field op value σ = Some (this, σ')
        ∧ represents σ' this (xs ++ [leaf field op value]) os lim off
        ∧ ((2 ≤ length xs)%nat → where_loc σ' this = where_loc σ this).
Proof.
  intros (q & Hq & Hw & Ho & Hlim & Hoff).
  set (new := FieldFilterObject field op (createField value)).
  assert (Hq1 : (σ ++ [new]) !! QueryBuilder.query this = Some (QueryObject q))
    by by apply lookup_alloc_old.
  assert (Hnew : holds_leaf (σ ++ [new]) (length σ) (leaf field op value))
    by apply lookup_alloc_new.
  unfold QueryBuilder.where_, bind. rewrite alloc_eq. fold new.
  rewrite (load_query_eq _ _ _ Hq1).
  destruct xs as [|x [|y xs]]; simpl in Hw.
  - (* first call: the leaf becomes the filter *)
    rewrite Hw. rewrite (update_eq _ _ _ _ Hq1). eexists. split; [reflexivity|].
    split; [|simpl; lia].
    eexists. split; [by eapply lookup_update_same|]. simpl.
    split_and!; [|eapply orderBy_rep_preserved; [|exact Ho]; preserved|done|done].
    exists (length σ). split; [done|].
    eapply (holds_leaf_preserved _ _ _ (leaf field op value)); [|exact Hnew].
    preserved.
  - (* second call: a composite of the previous leaf and the new one *)
    destruct Hw as (l & -> & Hl). destruct x as [f o v|]; [|done]. simpl in Hl.
    rewrite (load_eq _ _ _ (lookup_alloc_old _ new _ _ Hl)).
    rewrite alloc_eq.
    set (comp := CompositeFilterObject "AND" [l; length σ]).
    assert (Hq2 : ((σ ++ [new]) ++ [comp]) !! QueryBuilder.query this
                  = Some (QueryObject q)) by by apply lookup_alloc_old.
    assert (Hcomp : ((σ ++ [new]) ++ [comp]) !! length (σ ++ [new]) = Some comp)
      by apply lookup_alloc_new.
    rewrite (update_eq _ _ _ _ Hq2). eexists. split; [reflexivity|].
    split; [|simpl; lia].
    eexists. split; [by eapply lookup_update_same|]. simpl.
    split_and!; [|eapply orderBy_rep_preserved; [|exact Ho]; preserved|done|done].
    exists (length (σ ++ [new])), [l; length σ]. split_and!; [done| |].
    + assert (Hp : preserves CompositeShape ((σ ++ [new]) ++ [comp])
               (<[QueryBuilder.query this :=
                    QueryObject (mkQuery (Some (length (σ ++ [new])))
                                   (q_orderBy q) (q_limit q) (q_offset q))]>
                  ((σ ++ [new]) ++ [comp]))) by preserved.
      by apply Hp.
    + constructor; [|constructor; [|constructor]].
      * eapply (holds_leaf_preserved σ _ l (FieldFilter f o v)); [|exact Hl].
        preserved.
      * eapply (holds_leaf_preserved _ _ _ (leaf field op value)); [|exact Hnew].
        preserved.
  - (* later calls: pushed onto the composite's array *)
    destruct Hw as (c & ls & Hw & Hc & Hls). rewrite Hw.
    pose proof (lookup_alloc_old _ new _ _ Hc) as Hc1.
    rewrite (load_eq _ _ _ Hc1). rewrite (update_eq _ _ _ _ Hc1).
    eexists. split; [reflexivity|].
    assert (Hq3 : <[c := CompositeFilterObject "AND" (ls ++ [length σ])]>
                    (σ ++ [new]) !! QueryBuilder.query this
                  = Some (QueryObject q)).
    { assert (Hp : preserves QueryShape (σ ++ [new])
               (<[c := CompositeFilterObject "AND" (ls ++ [length σ])]>
                  (σ ++ [new]))) by preserved.
      by apply Hp. }
    split; [|intros _; unfold where_loc; by rewrite Hq3, Hq].
    exists q. split; [done|].
    split_and!; [|eapply orderBy_rep_preserved; [|exact Ho]; preserved|done|done].
    exists c, (ls ++ [length σ]). split_and!; [done|by eapply lookup_update_same|].
    change (x :: y :: xs ++ [leaf field op value])
      with ((x :: y :: xs) ++ [leaf field op value]).
    apply Forall2_app.
    + eapply Forall2_holds_leaf_preserved; [|exact Hls]. preserved.
    + constructor; [|constructor].
      eapply (holds_leaf_preserved _ _ _ (leaf field op value)); [|exact Hnew].
      preserved.
Qed.

Lemma orderBy_represents σ this xs os lim off field direction :
  represents σ this xs os lim off →
  ∃ σ', QueryBuilder.orderBy this field direction σ = Some (this, σ')
        ∧ represents σ' this xs (os ++ [mkOrder field direction]) lim off.
Proof.
  intros (q & Hq & Hw & Ho & Hlim & Hoff).
  unfold QueryBuilder.orderBy, bind. rewrite (load_query_eq _ _ _ Hq).
  destruct os as [|o os]; simpl in Ho.
  - (* first call: the array is created, then pushed to *)
    rewrite Ho, alloc_eq.
    set (arr := OrderArray []).
    assert (Hq1 : (σ ++ [arr]) !! QueryBuilder.query this = Some (QueryObject q))
      by by apply lookup_alloc_old.
    rewrite (update_eq _ _ _ _ Hq1).
    set (q' := mkQuery (q_where q) (Some (length σ)) (q_limit q) (q_offset q)).
    set (σ1 := <[QueryBuilder.query this := QueryObject q']> (σ ++ [arr])).
    assert (Hq2 : σ1 !! QueryBuilder.query this = Some (QueryObject q'))
      by by eapply lookup_update_same.
    assert (Harr : σ1 !! length σ = Some arr).
    { assert (Hp : preserves ArrayShape (σ ++ [arr]) σ1) by (subst σ1; preserved).
      apply Hp; [done|]. apply lookup_alloc_new. }
    rewrite (load_query_eq _ _ _ Hq2). simpl.
    rewrite (load_eq _ _ _ Harr). simpl. rewrite (update_eq _ _ _ _ Harr).
    eexists. split; [reflexivity|].
    exists q'. split.
    { assert (Hp : preserves QueryShape σ1
                (<[length σ := OrderArray [mkOrder field direction]]> σ1))
        by preserved.
      by apply Hp. }
    split_and!; [|eexists; split; [done|by eapply lookup_update_same]|done|done].
    eapply where_rep_preserved; [| |exact Hw]; subst σ1; preserved.
  - (* later calls: pushed onto the existing array *)
    destruct Ho as (a & Ha & Harr). rewrite Ha. simpl.
    rewrite (load_query_eq _ _ _ Hq). rewrite Ha.
    rewrite (load_eq _ _ _ Harr). simpl. rewrite (update_eq _ _ _ _ Harr).
    eexists. split; [reflexivity|].
    exists q. split.
    { assert (Hp : preserves QueryShape σ
                (<[a := OrderArray ((o :: os) ++ [mkOrder field direction])]> σ))
        by preserved.
      by apply Hp. }
    split_and!; [|eexists; split; [done|by eapply lookup_update_same]|done|done].
    eapply where_rep_preserved; [| |exact Hw]; preserved.
Qed.

Lemma limit_represents σ this xs os lim off limit :
  represents σ this xs os lim off →
  ∃ σ', QueryBuilder.limit this limit σ = Some (this, σ')
        ∧ represents σ' this xs os (Some limit) off.
Proof.
  intros (q & Hq & Hw & Ho & Hlim & Hoff).
  unfold QueryBuilder.limit, bind. rewrite (load_query_eq _ _ _ Hq).
  rewrite (update_eq _ _ _ _ Hq). eexists. split; [reflexivity|].
  eexists. split; [by eapply lookup_update_same|]. simpl. split_and!; [| |done|done].
  - eapply where_rep_preserved; [| |exact Hw]; preserved.
  - eapply orderBy_rep_preserved; [|exact Ho]; preserved.
Qed.

Lemma setOffset_represents σ this xs os lim off offset :
  represents σ this xs os lim off →
  ∃ σ', QueryBuilder.setOffset this offset σ = Some (this, σ')
        ∧ represents σ' this xs os lim (Some offset).
Proof.
  intros (q & Hq & Hw & Ho & Hlim & Hoff).
  unfold QueryBuilder.setOffset, bind. rewrite (load_query_eq _ _ _ Hq).
  rewrite (update_eq _ _ _ _ Hq). eexists. split; [reflexivity|].
  eexists. split; [by eapply lookup_update_same|]. simpl. split_and!; [| |done|done].
  - eapply where_rep_preserved; [| |exact Hw]; preserved.
  - eapply orderBy_rep_preserved; [|exact Ho]; preserved.
Qed.

Lemma build_eq σ this : QueryBuilder.build this σ = Some (QueryBuilder.query this, σ).
Proof. reflexivity. Qed.

End Methods.

(** ** A call sequence leaves what it asks for *)

Section Sessions.

Implicit Types (σ : store) (this : QueryBuilder.t) (cs : list Call).
Implicit Types (xs : list Filter) (os : list Order).

Lemma call_represents σ this xs os lim off c :
  represents σ this xs os lim off →
  ∃ σ', call this c σ = Some (this, σ')
        ∧ represents σ' this (xs ++ leaves_of [c]) (os ++ orders_of [c])
            (last_limit lim [c]) (last_offset off [c]).
Proof.
  intros H. destruct c; simpl; rewrite ?app_nil_r.
  - destruct (where_represents _ _ _ _ _ _ field op value H) as (σ' & ? & ? & _).
    by exists σ'.
  - by eapply orderBy_represents.
  - by eapply limit_represents.
  - by eapply setOffset_represents.
  - exists σ. by split.
Qed.

Lemma leaves_of_cons c cs : leaves_of (c :: cs) = leaves_of [c] ++ leaves_of cs.
Proof. destruct c; simpl; done. Qed.
Lemma orders_of_cons c cs : orders_of (c :: cs) = orders_of [c] ++ orders_of cs.
Proof. destruct c; simpl; done. Qed.
Lemma last_limit_cons lim c cs :
  last_limit lim (c :: cs) = last_limit (last_limit lim [c]) cs.
Proof. destruct c; simpl; done. Qed.
Lemma last_offset_cons off c cs :
  last_offset off (c :: cs) = last_offset (last_offset off [c]) cs.
Proof. destruct c; simpl; done. Qed.

Lemma calls_represents cs : ∀ σ this xs os lim off,
  represents σ this xs os lim off →
  ∃ σ', calls this cs σ = Some (this, σ')
        ∧ represents σ' this (xs ++ leaves_of cs) (os ++ orders_of cs)
            (last_limit lim cs) (last_offset off cs).
Proof.
  induction cs as [|c cs IH]; intros σ this xs os lim off H.
  - exists σ. simpl. rewrite !app_nil_r. by split.
  - destruct (call_represents _ _ _ _ _ _ c H) as (σ1 & Hc & H1).
    destruct (IH _ _ _ _ _ _ H1) as (σ2 & Hcs & H2).
    exists σ2. split.
    + simpl. unfold bind. by rewrite Hc.
    + rewrite leaves_of_cons, orders_of_cons, last_limit_cons, last_offset_cons.
      by rewrite !app_assoc.
Qed.

(** A session always runs to completion, and the builder then represents
    exactly the clauses of the calls. *)
Lemma session_represents cs σ :
  ∃ this σ', session cs σ = Some (this, σ')
             ∧ represents σ' this (leaves_of cs) (orders_of cs)
                 (last_limit None cs) (last_offset None cs).
Proof.
  destruct (new_represents σ) as (this & σ1 & Hnew & H1).
  destruct (calls_represents cs _ _ _ _ _ _ H1) as (σ2 & Hcs & H2).
  exists this, σ2. split; [|done].
  unfold session, bind. by rewrite Hnew.
Qed.

(** Reading back a represented builder gives the flat descriptor. *)
Lemma read_leaves σ depth ls xs :
  Forall2 (holds_leaf σ) ls xs → mapM (read_filter (S depth) σ) ls = Some xs.
Proof.
  intros H. apply mapM_Some. eapply Forall2_impl; [exact H|].
  intros l [f o v|]; simpl; [|done]. by intros ->.
Qed.

Lemma read_represented σ this xs os lim off depth :
  represents σ this xs os lim off →
  read_descriptor (S (S depth)) σ (QueryBuilder.query this)
  = Some (mkDescriptor (flat_and xs) (ordering os) lim off).
Proof.
  intros (q & Hq & Hw & Ho & <- & <-). unfold read_descriptor. rewrite Hq.
  assert (read_optional (read_filter (S (S depth)) σ) (q_where q)
          = Some (flat_and xs)) as ->.
  { destruct xs as [|x [|y xs]]; simpl in Hw.
    - by rewrite Hw.
    - destruct Hw as (l & -> & Hl). destruct x; [|done]. simpl in *. by rewrite Hl.
    - destruct Hw as (c & ls & -> & Hc & Hls).
      change (read_optional (read_filter (S (S depth)) σ) (Some c))
        with (Some <$> match σ !! c with
                       | Some (FieldFilterObject fieldPath op value) =>
                           Some (FieldFilter fieldPath op value)
                       | Some (CompositeFilterObject op filters) =>
                           CompositeFilter op <$> mapM (read_filter (S depth) σ) filters
                       | _ => None
                       end).
      rewrite Hc. by rewrite (read_leaves _ _ _ _ Hls). }
  assert (read_optional (read_orders σ) (q_orderBy q) = Some (ordering os)) as ->.
  { destruct os as [|o os]; simpl in Ho.
    - by rewrite Ho.
    - destruct Ho as (l & -> & Hl). simpl. unfold read_orders. by rewrite Hl. }
  done.
Qed.

End Sessions.

(** ** Theorems on the query builder *)

Section BuilderClaims.

Implicit Types (σ : store) (cs : list Call).

Lemma leaves_of_app cs cs' : leaves_of (cs ++ cs') = leaves_of cs ++ leaves_of cs'.
Proof. induction cs as [|[] cs IH]; simpl; by rewrite ?IH. Qed.

Lemma orders_of_app cs cs' : orders_of (cs ++ cs') = orders_of cs ++ orders_of cs'.
Proof. induction cs as [|[] cs IH]; simpl; by rewrite ?IH. Qed.

Lemma last_limit_app cs cs' : ∀ lim,
  last_limit lim (cs ++ cs') = last_limit (last_limit lim cs) cs'.
Proof. induction cs as [|[] cs IH]; intros lim; simpl; by rewrite ?IH. Qed.

Lemma last_offset_app cs cs' : ∀ off,
  last_offset off (cs ++ cs') = last_offset (last_offset off cs) cs'.
Proof. induction cs as [|[] cs IH]; intros off; simpl; by rewrite ?IH. Qed.

(** Running [cs ++ cs'] is running [cs], then [cs']. *)
Lemma calls_app cs cs' : ∀ this σ,
  calls this (cs ++ cs') σ = (do this <- calls this cs; calls this cs') σ.
Proof.
  induction cs as [|c cs IH]; intros this σ; [reflexivity|].
  simpl. unfold bind. destruct (call this c σ) as [[b σ1]|]; [|done].
  rewrite IH. reflexivity.
Qed.

(** Every element of [leaves_of] is a leaf comparison, never a composite. *)
Lemma leaves_of_are_leaves cs :
  Forall (λ x, ∃ field op value, x = FieldFilter field op value) (leaves_of cs).
Proof.
  induction cs as [|c cs IH]; [constructor|].
  destruct c; simpl; try done. constructor; [|done]. unfold leaf. eauto.
Qed.

(** C2.  Filter composition in [QueryBuilder.where].  For a fresh builder and
    any sequence of calls, the filter read from [this.query] is: nothing when
    there was no [where] call; the single leaf after one call; and after
    [n >= 2] calls one AND-composite whose conjuncts are exactly the [n]
    leaves in call order.  All conjuncts are leaf comparisons, so the
    composite is flat.  A further [where] call on a builder that already
    holds a composite leaves [this.query.where] referring to the same object:
    the leaf is appended in place. *)
Theorem where_composes_flat_and cs σ :
  ∃ this σ',
    session cs σ = Some (this, σ')
    ∧ (∀ depth,
         d_where <$> read_descriptor (S (S depth)) σ' (QueryBuilder.query this)
         = Some match leaves_of cs with
                | [] => None
                | [single] => Some single
                | conjuncts => Some (CompositeFilter "AND" conjuncts)
                end)
    ∧ Forall (λ x, ∃ field op value, x = FieldFilter field op value)
        (leaves_of cs)
    ∧ (∀ field op value,
         ∃ σ'', QueryBuilder.where_ this field op value σ' = Some (this, σ'')
                ∧ ((2 ≤ length (leaves_of cs))%nat →
                   where_loc σ'' this = where_loc σ' this)).
Proof.
  destruct (session_represents cs σ) as (this & σ' & Hrun & Hrep).
  exists this, σ'. split; [done|]. split; [|split; [apply leaves_of_are_leaves|]].
  - intros depth. rewrite (read_represented _ _ _ _ _ _ depth Hrep). simpl.
    by destruct (leaves_of cs) as [|? [|? ?]].
  - intros field op value.
    destruct (where_represents _ _ _ _ _ _ field op value Hrep)
      as (σ'' & Hw & _ & Hloc).
    by exists σ''.
Qed.

(** C6.  Ordering and pagination.  For a fresh builder and any sequence of
    calls, the descriptor read from [this.query] holds the [orderBy] pairs in
    call order (no [orderBy] property when there was no such call), the
    argument of the last [limit] call and the argument of the last
    [setOffset] call (each absent when never called). *)
Theorem ordering_and_pagination_accumulate cs σ :
  ∃ this σ',
    session cs σ = Some (this, σ')
    ∧ ∀ depth,
        ∃ d, read_descriptor (S (S depth)) σ' (QueryBuilder.query this) = Some d
             ∧ d_orderBy d = match orders_of cs with
                             | [] => None
                             | pairs => Some pairs
                             end
             ∧ d_limit d = last_limit None cs
             ∧ d_offset d = last_offset None cs.
Proof.
  destruct (session_represents cs σ) as (this & σ' & Hrun & Hrep).
  exists this, σ'. split; [done|]. intros depth.
  eexists. split; [exact (read_represented _ _ _ _ _ _ depth Hrep)|]. simpl.
  by destruct (orders_of cs).
Qed.

(** C7.  [build()] neither resets nor freezes the builder.  On the builder
    reached by any call sequence [cs]: [build()] returns the reference held
    in [this.query] and leaves the store as it is; calls [cs'] made after
    [build()] run, and the whole session is the one without the [build()]
    call; and the descriptor [d] that [build()] returned before [cs'] reads,
    after [cs'], as the state after [cs'] -- it is the same reference that a
    second [build()] returns. *)
Theorem build_returns_live_query cs cs' σ :
  ∃ this σ1 d,
    session cs σ = Some (this, σ1)
    ∧ QueryBuilder.build this σ1 = Some (d, σ1)
    ∧ d = QueryBuilder.query this
    ∧ session (cs ++ Build :: cs') σ = session (cs ++ cs') σ
    ∧ ∃ σ2,
        calls this cs' σ1 = Some (this, σ2)
        ∧ QueryBuilder.build this σ2 = Some (d, σ2)
        ∧ ∀ depth,
            read_descriptor (S (S depth)) σ1 d
            = Some (mkDescriptor (flat_and (leaves_of cs))
                      (ordering (orders_of cs))
                      (last_limit None cs) (last_offset None cs))
            ∧ read_descriptor (S (S depth)) σ2 d
              = Some (mkDescriptor (flat_and (leaves_of (cs ++ cs')))
                        (ordering (orders_of (cs ++ cs')))
                        (last_limit None (cs ++ cs'))
                        (last_offset None (cs ++ cs'))).
Proof.
  destruct (session_represents cs σ) as (this & σ1 & Hrun & Hrep).
  destruct (calls_represents cs' _ _ _ _ _ _ Hrep) as (σ2 & Hcs' & Hrep2).
  exists this, σ1, (QueryBuilder.query this).
  split_and!; [done|done|done| |].
  - unfold session, bind. destruct (QueryBuilder.new σ) as [[b σ0]|]; [|done].
    by rewrite !calls_app.
  - exists σ2. split_and!; [done|done|]. intros depth. split.
    + exact (read_represented _ _ _ _ _ _ depth Hrep).
    + rewrite (read_represented _ _ _ _ _ _ depth Hrep2).
      by rewrite leaves_of_app, orders_of_app, last_limit_app, last_offset_app.
Qed.

(** The specification's examples, run on an empty store. *)
Example single_filter_example :
  (do this <- session [Where "a" "EQUAL" (VNumber (of_Z 1))];
   QueryBuilder.build this) []
  = Some (0, [ QueryObject (mkQuery (Some 1) None None None);
               FieldFilterObject "a" "EQUAL" (IntegerValue "1") ]).
Proof. reflexivity. Qed.

Example three_filters_example :
  match session [ Where "a" "EQUAL" (VNumber (of_Z 1));
                  Where "b" "EQUAL" (VNumber (of_Z 2));
                  Where "c" "EQUAL" (VNumber (of_Z 3)) ] [] with
  | Some (this, σ) => d_where <$> read_descriptor 2 σ (QueryBuilder.query this)
  | None => None
  end
  = Some (Some (CompositeFilter "AND"
                  [ FieldFilter "a" "EQUAL" (IntegerValue "1");
                    FieldFilter "b" "EQUAL" (IntegerValue "2");
                    FieldFilter "c" "EQUAL" (IntegerValue "3") ])).
Proof. reflexivity. Qed.

Example ordering_example :
  match session [ OrderBy "x" "ASCENDING"; OrderBy "y" "DESCENDING";
                  Limit (VNumber (of_Z 3)); Limit (VNumber (of_Z 10));
                  SetOffset (VNumber (of_Z 5)) ] [] with
  | Some (this, σ) => read_descriptor 2 σ (QueryBuilder.query this)
  | None => None
  end
  = Some (mkDescriptor None
            (Some [mkOrder "x" "ASCENDING"; mkOrder "y" "DESCENDING"])
            (Some (VNumber (of_Z 10))) (Some (VNumber (of_Z 5)))).
Proof. reflexivity. Qed.

(** A descriptor obtained after the first [where] shows the composite built
    by the calls made after it. *)
Example live_descriptor_example :
  (do this <- QueryBuilder.new;
   do this <- QueryBuilder.where_ this "a" "EQUAL" (VNumber (of_Z 1));
   do descriptor <- QueryBuilder.build this;
   do this <- QueryBuilder.where_ this "b" "EQUAL" (VNumber (of_Z 2));
   do this <- QueryBuilder.limit this (VNumber (of_Z 10));
   λ σ, Some (read_descriptor 2 σ descriptor, σ)) []
  = Some (Some (mkDescriptor
                  (Some (CompositeFilter "AND"
                           [ FieldFilter "a" "EQUAL" (IntegerValue "1");
                             FieldFilter "b" "EQUAL" (IntegerValue "2") ]))
                  None (Some (VNumber (of_Z 10))) None),
          [ QueryObject (mkQuery (Some 3) None (Some (VNumber (of_Z 10))) None);
            FieldFilterObject "a" "EQUAL" (IntegerValue "1");
            FieldFilterObject "b" "EQUAL" (IntegerValue "2");
            CompositeFilterObject "AND" [1; 2] ]).
Proof. reflexivity. Qed.

End BuilderClaims.

(** ** What decoding returns, and when it throws *)

Section DecodedValues.

(** When [parseMap] returns, the decoder has returned on every field. *)
Lemma parseMap_with_Some parse (fields : gmap string Field) result :
  parseMap_with parse (Some fields) = Some result →
  map_Forall (λ _ f, is_Some (parse f)) fields.
Proof.
  unfold parseMap_with. revert result.
  apply (map_fold_weak_ind
           (λ r m, ∀ result, r = Some result →
                   map_Forall (λ _ f, is_Some (parse f)) m)).
  - intros result _. apply map_Forall_empty.
  - intros key f m r Hkey IH result H.
    destruct (parse f) as [v|] eqn:Hv; [|done]. simpl in H.
    destruct r as [r|]; [|done].
    apply map_Forall_insert; [done|]. split; [by rewrite Hv|by eapply IH].
Qed.

(** What [parseMap] returns, when it returns: the decoded field under every
    key but ["__proto__"]. *)
Lemma parseMap_with_result parse (fields : gmap string Field) result :
  parseMap_with parse (Some fields) = Some result →
  ∀ key, result !! key
         = if String.eqb key "__proto__" then None else fields !! key ≫= parse.
Proof.
  intros H. pose proof (parseMap_with_Some _ _ _ H) as Hall.
  destruct (parseMap_with_lookup parse fields Hall) as (r & Hr & Hlook).
  rewrite H in Hr. by injection Hr as <-.
Qed.

Lemma parseMap_result (fields : option (gmap string Field)) result :
  parseMap fields = Some result →
  ∀ key, result !! key
         = if String.eqb key "__proto__" then None
           else field_of fields key ≫= parseField.
Proof.
  destruct fields as [m|]; simpl.
  - apply parseMap_with_result.
  - intros [= <-] key. rewrite lookup_empty. by destruct (String.eqb key _).
Qed.

(** A conjunction folded over a map holds when it holds of every entry. *)
Lemma map_fold_and {A} (p : string → A → bool) (m : gmap string A) :
  map_fold (λ key v b, p key v && b) true m = true
  ↔ map_Forall (λ key v, p key v = true) m.
Proof.
  apply (map_fold_weak_ind
           (λ b m, b = true ↔ map_Forall (λ key v, p key v = true) m)).
  - split; [intros _; apply map_Forall_empty|done].
  - intros key v m' b Hkey IH. rewrite andb_true_iff, IH.
    by rewrite map_Forall_insert.
Qed.

Lemma decoded_shape_VObject props :
  decoded_shape (VObject Plain props) = true
  ↔ map_Forall (λ key v, String.eqb key "__proto__" = false
                         ∧ decoded_shape v = true) props.
Proof.
  change (decoded_shape (VObject Plain props))
    with (map_fold (λ key v b,
                      (negb (String.eqb key "__proto__") && decoded_shape v) && b)
                   true props).
  rewrite (map_fold_and
             (λ key v, negb (String.eqb key "__proto__") && decoded_shape v)).
  split; intros H key v Hv; specialize (H key v Hv); simpl in *.
  - apply andb_true_iff in H as [H1 H2]. by apply negb_true_iff in H1.
  - destruct H as [-> ->]. done.
Qed.

Lemma decoded_shape_VArray items :
  decoded_shape (VArray items) = true
  ↔ Forall (λ v, decoded_shape v = true) items.
Proof.
  change (decoded_shape (VArray items)) with (forallb decoded_shape items).
  rewrite forallb_forall, Forall_forall.
  split; intros H v Hv; apply H; by apply list_elem_of_In.
Qed.

(** A decoded value is neither [undefined], nor [false], nor the empty
    string. *)
Lemma decoded_shape_not_falsy (v : Value) :
  decoded_shape v = true →
  v ≠ VUndefined ∧ v ≠ VBoolean false ∧ v ≠ VString EmptyString.
Proof. intros H. split_and!; intros ->; done. Qed.

(** Every value that [parseField] returns has the shape of a decoded
    value. *)
Lemma parseField_shape (field : Field) (value : Value) :
  parseField field = Some value → decoded_shape value = true.
Proof.
  revert value.
  induction field as [|iv dv bv sv mapValue arrayValue IHmap IHarr]
    using Field_nested_ind; [done|].
  intros value. simpl.
  destruct (populated truthy_numeral iv); [by intros [= <-]|].
  destruct (populated truthy_numeral dv); [by intros [= <-]|].
  destruct (populated truthy_boolean bv) as [b|] eqn:Hb.
  { intros [= <-]. destruct bv as [b'|]; [|done]. simpl in Hb.
    destruct b'; [|done]. by injection Hb as <-. }
  destruct (populated truthy_string sv) as [s|] eqn:Hs.
  { intros [= <-]. destruct sv as [s'|]; [|done]. simpl in Hs.
    destruct (truthy_string s') eqn:Hs'; [|done]. by injection Hs as <-. }
  destruct mapValue as [[fields|]|].
  - destruct (parseMap_with parseField (Some fields)) as [result|] eqn:Hr; [|done].
    intros [= <-]. apply decoded_shape_VObject. intros key v Hv.
    rewrite (parseMap_with_result _ _ _ Hr) in Hv.
    destruct (String.eqb key "__proto__"); [done|]. split; [done|].
    destruct (fields !! key) as [f|] eqn:Hf; [|done].
    by apply (IHmap fields eq_refl key f Hf).
  - by intros [= <-].
  - destruct arrayValue as [[values|]|]; [|by intros [= <-]..].
    destruct (mapM parseField values) as [vs|] eqn:Hvs; [|done].
    intros [= <-]. apply decoded_shape_VArray.
    apply mapM_Some in Hvs. specialize (IHarr values eq_refl).
    clear -Hvs IHarr.
    induction Hvs as [|f v fs vs Hfv _ IH]; [constructor|].
    apply Forall_cons in IHarr as [Hf Hfs]. constructor; auto.
Qed.

(** X3.  What decoding never returns.  Whatever the wire value, a value that
    [parseField] returns is [null], [true], a number, a non-empty string, or
    a list or plain object of such values, at every depth, and no object in
    it has an own ["__proto__"] property.  In particular the value is never
    [undefined], never [false] and never the empty string. *)
Theorem parseField_decoded_shape (field : Field) (value : Value) :
  parseField field = Some value →
  decoded_shape value = true
  ∧ value ≠ VUndefined ∧ value ≠ VBoolean false ∧ value ≠ VString EmptyString.
Proof.
  intros H%parseField_shape. split; [done|]. by apply decoded_shape_not_falsy.
Qed.

Lemma parseField_decoded_shape_witness :
  parseField (FObject None None None None (Some (fields private_set)) None)
  = Some (VObject Plain private_set_decoded)
  ∧ decoded_shape (VObject Plain private_set_decoded) = true.
Proof.
  assert (H : parseField
                (FObject None None None None (Some (fields private_set)) None)
              = Some (VObject Plain private_set_decoded)) by (by vm_compute).
  split; [exact H|]. exact (proj1 (parseField_decoded_shape _ _ H)).
Defined.

(** X1.  When decoding throws.  [parseField] returns on every wire value in
    which the JavaScript [null] does not occur.  On [null] itself it throws,
    and so it does on an array that has [null] among its [values] and on a
    map that has [null] among its [fields]. *)
Theorem parseField_throws_on_null :
  (∀ field, null_free field = true → is_Some (parseField field))
  ∧ parseField FNull = None
  ∧ (∀ values, FNull ∈ values → parseField (ArrayValue values) = None)
  ∧ (∀ fields key,
       fields !! key = Some FNull → parseField (MapValue fields) = None).
Proof.
  split_and!; [apply parseField_returns|done| |].
  - intros values Hnull.
    change (VArray <$> mapM parseField values = None).
    destruct (mapM parseField values) as [vs|] eqn:Hvs; [|done].
    assert (is_Some (mapM parseField values)) as Hsome by by eexists.
    rewrite mapM_is_Some, Forall_forall in Hsome.
    by destruct (Hsome FNull Hnull).
  - intros fields key Hnull.
    change (VObject Plain <$> parseMap_with parseField (Some fields) = None).
    destruct (parseMap_with parseField (Some fields)) as [result|] eqn:Hr; [|done].
    by destruct (parseMap_with_Some _ _ _ Hr key FNull Hnull).
Qed.

(** X6.  [parseMap] decodes key by key.  When it returns, the result has the
    decoded field under every key of [fields] other than ["__proto__"], and
    no other property; in particular it is the empty object when [fields] is
    absent. *)
Theorem parseMap_decodes_keywise (fields : option (gmap string Field)) result :
  parseMap fields = Some result →
  (∀ key f, field_of fields key = Some f → key ≠ "__proto__" →
            result !! key = parseField f ∧ is_Some (parseField f))
  ∧ (∀ key, is_Some (result !! key) →
            key ≠ "__proto__" ∧ is_Some (field_of fields key))
  ∧ result !! "__proto__" = None
  ∧ (fields = None → result = ∅).
Proof.
  intros H. pose proof (parseMap_result _ _ H) as Hlook. split_and!.
  - intros key f Hf Hkey. rewrite Hlook.
    apply String.eqb_neq in Hkey. rewrite Hkey, Hf. simpl. split; [done|].
    destruct fields as [m|]; [|done]. simpl in Hf.
    by apply (parseMap_with_Some _ _ _ H key f).
  - intros key [v Hv]. rewrite Hlook in Hv.
    destruct (String.eqb_spec key "__proto__") as [|Hne]; [done|].
    split; [done|]. destruct (field_of fields key); [by eexists|done].
  - by rewrite Hlook.
  - intros ->. by injection H as <-.
Qed.

Lemma parseMap_decodes_keywise_witness :
  parseMap (fields private_set) = Some private_set_decoded
  ∧ private_set_decoded !! "public" = parseField (BooleanValue false)
  ∧ private_set_decoded !! "__proto__" = None.
Proof.
  assert (H : parseMap (fields private_set) = Some private_set_decoded)
    by (by vm_compute).
  destruct (parseMap_decodes_keywise _ _ H) as (Hkeys & _ & Hproto & _).
  split; [exact H|]. split; [|exact Hproto].
  apply (Hkeys "public" (BooleanValue false)); [by vm_compute|done].
Defined.

(** X16.  Containers without payload.  When no scalar tag is populated, a
    [mapValue] without [fields] decodes to the empty object, whatever
    [arrayValue] holds, but an [arrayValue] without [values] decodes to
    [null], not to the empty list. *)
Theorem parseField_absent_payload iv dv bv sv :
  populated truthy_numeral iv = None → populated truthy_numeral dv = None →
  populated truthy_boolean bv = None → populated truthy_string sv = None →
  (∀ arrayValue,
     parseField (FObject iv dv bv sv (Some None) arrayValue)
     = Some (VObject Plain ∅))
  ∧ parseField (FObject iv dv bv sv None (Some None)) = Some VNull
  ∧ parseField (FObject iv dv bv sv None (Some (Some []))) = Some (VArray []).
Proof.
  intros H1 H2 H3 H4. split_and!; [intros arrayValue| |];
    simpl; by rewrite H1, H2, H3, H4.
Qed.

Lemma parseField_absent_payload_witness :
  parseField (FObject None None (Some false) None (Some None) (Some None))
  = Some (VObject Plain ∅)
  ∧ parseField (FObject None None (Some false) None None (Some None))
    = Some VNull.
Proof.
  destruct (parseField_absent_payload None None (Some false) None)
    as (Hmap & Harr & _); [reflexivity..|].
  split; [apply Hmap|exact Harr].
Defined.

End DecodedValues.

(** ** Decoding by tag and decoding by payload *)

Section DecodeByTag.

(** The test on one wire object, unfolded. *)
Lemma truthy_payloads_FObject iv dv bv sv mapValue arrayValue :
  truthy_payloads (FObject iv dv bv sv mapValue arrayValue)
  = match iv with Some payload => truthy_numeral payload | None => true end
    && match dv with Some payload => truthy_numeral payload | None => true end
    && match bv with Some b => truthy_boolean b | None => true end
    && match sv with Some s => truthy_string s | None => true end
    && match mapValue with
       | Some (Some fields) =>
           map_fold (λ key f b,
                       negb (String.eqb key "__proto__") && truthy_payloads f && b)
                    true fields
       | _ => true
       end
    && match arrayValue with
       | Some (Some values) => forallb truthy_payloads values
       | Some None => false
       | None => true
       end.
Proof. reflexivity. Qed.

(** On a wire value whose payloads are all truthy, the code decodes as the
    specification says. *)
Lemma parseField_decode_by_tag (field : Field) :
  truthy_payloads field = true → parseField field = Some (decode_by_tag field).
Proof.
  induction field as [|iv dv bv sv mapValue arrayValue IHmap IHarr]
    using Field_nested_ind; [done|].
  rewrite truthy_payloads_FObject, !andb_true_iff.
  intros [[[[[Hiv Hdv] Hbv] Hsv] Hmap] Harr].
  simpl.
  destruct iv as [p|]; simpl; [by rewrite Hiv|].
  destruct dv as [p|]; simpl; [by rewrite Hdv|].
  destruct bv as [b|]; simpl; [by rewrite Hbv|].
  destruct sv as [s|]; simpl; [by rewrite Hsv|].
  destruct mapValue as [[fields|]|]; [| done |].
  - apply (map_fold_and
             (λ key f, negb (String.eqb key "__proto__") && truthy_payloads f))
      in Hmap.
    assert (Hdec : map_Forall (λ _ f, parseField f = Some (decode_by_tag f)) fields).
    { intros key f Hf. apply (IHmap fields eq_refl key f Hf).
      pose proof (Hmap key f Hf) as Hf'. by apply andb_true_iff in Hf' as [_ ?]. }
    destruct (parseMap_with_lookup parseField fields) as (result & -> & Hlook).
    { intros key f Hf. rewrite (Hdec key f Hf). by eexists. }
    simpl. do 2 f_equal. apply map_eq. intros key.
    rewrite Hlook, lookup_fmap.
    destruct (fields !! key) as [f|] eqn:Hf; simpl.
    + pose proof (Hmap key f Hf) as Hf'. apply andb_true_iff in Hf' as [Hkey _].
      apply negb_true_iff in Hkey as ->. apply (Hdec key f Hf).
    + by destruct (String.eqb key "__proto__").
  - destruct arrayValue as [[values|]|]; [| done | done].
    specialize (IHarr values eq_refl).
    assert (mapM parseField values = Some (decode_by_tag <$> values)) as ->; [|done].
    apply mapM_Some. rewrite forallb_forall in Harr.
    clear -IHarr Harr. induction values as [|f values IH]; [constructor|].
    apply Forall_cons in IHarr as [Hf Hfs].
    rewrite fmap_cons. constructor.
    + apply Hf, Harr. by left.
    + apply IH; [done|]. intros x Hx. apply Harr. by right.
Qed.

(** C3.  Decoding in priority order.  [parseField] looks at the tags in the
    order Integer, Double, Boolean, String, Map, Array, but it tests the
    payload of a tag, not the tag.  A Boolean variant holding [false], a
    String variant holding the empty string and a Double variant holding the
    number [0] are set, and decode to [null] where the specification returns
    the payload; when a tag of lower priority is set beside a [false], the
    code returns that one.  No wire value at all decodes to [false] or to the
    empty string.  On the wire values whose payloads are all truthy the code
    returns what the specification says, and the wire value without any tag
    decodes to [null]. *)
Theorem parseField_skips_falsy_variant :
  (decode_by_tag (BooleanValue false) = VBoolean false
   ∧ parseField (BooleanValue false) = Some VNull)
  ∧ (decode_by_tag (StringValue EmptyString) = VString EmptyString
     ∧ parseField (StringValue EmptyString) = Some VNull)
  ∧ (decode_by_tag (FObject None (Some (NNumber (of_Z 0))) None None None None)
     = VNumber (of_Z 0)
     ∧ parseField (FObject None (Some (NNumber (of_Z 0))) None None None None)
       = Some VNull)
  ∧ (∀ s, truthy_string s = true →
       decode_by_tag (FObject None None (Some false) (Some s) None None)
       = VBoolean false
       ∧ parseField (FObject None None (Some false) (Some s) None None)
         = Some (VString s))
  ∧ (∀ field, parseField field ≠ Some (VBoolean false)
              ∧ parseField field ≠ Some (VString EmptyString))
  ∧ (∀ field, truthy_payloads field = true →
              parseField field = Some (decode_by_tag field))
  ∧ (decode_by_tag Untagged = VNull ∧ parseField Untagged = Some VNull).
Proof.
  split_and!; try reflexivity.
  - intros s Hs. simpl. by rewrite Hs.
  - intros field. split; intros Hf; by apply parseField_shape in Hf.
  - apply parseField_decode_by_tag.
Qed.

End DecodeByTag.

(** ** What encoding builds *)

Section EncodedValues.

Lemma encodable_VObject kind props :
  kind ≠ NullPrototype →
  encodable (VObject kind props) = true
  ↔ map_Forall (λ _ v, encodable v = true) props.
Proof.
  intros Hkind.
  assert (encodable (VObject kind props)
          = map_fold (λ (_ : string) v b, encodable v && b) true props) as ->
    by by destruct kind.
  apply (map_fold_and (λ _ v, encodable v)).
Qed.

Lemma encodable_VArray items :
  encodable (VArray items) = true ↔ Forall (λ v, encodable v = true) items.
Proof.
  change (encodable (VArray items)) with (forallb encodable items).
  rewrite forallb_forall, Forall_forall.
  split; intros H v Hv; apply H; by apply list_elem_of_In.
Qed.

(** X4.  When encoding followed by decoding throws.  For a value that is a
    finite tree, [parseField(createField(value))] returns a value exactly
    when none of the inputs that [createField] turns into the JavaScript
    [null] occurs in [value]: [undefined], [null], a symbol, a BigInt, or an
    object that is not [instanceof Object].  Otherwise [createField] has put
    [null] where [parseField] reads a property, and the composition
    throws. *)
Theorem encode_decode_returns_iff_encodable (value : Value) :
  is_Some (parseField (createField value)) ↔ encodable value = true.
Proof.
  induction value as [| |b|n|s|d|items IH|kind props IH|z] using Value_nested_ind;
    try (split; [by intros [? [=]]|done]).
  - split; [done|intros _]. simpl.
    destruct b; by eexists.
  - split; [done|intros _]. simpl.
    destruct (isInteger n); simpl;
      destruct (truthy_string (toString n)); by eexists.
  - split; [done|intros _]. simpl.
    destruct (truthy_string s); by eexists.
  - rewrite encodable_VArray.
    change (parseField (createField (VArray items)))
      with (VArray <$> mapM parseField (createField <$> items)).
    rewrite fmap_is_Some, mapM_is_Some, Forall_fmap.
    rewrite !Forall_forall in *. split; intros H v Hv; by apply (IH v Hv), H.
  - assert (kind = NullPrototype ∨ kind ≠ NullPrototype) as [->|Hkind]
      by (destruct kind; auto); [split; [by intros [? [=]]|done]|].
    rewrite encodable_VObject by done.
    assert (parseField (createField (VObject kind props))
            = VObject Plain
                <$> parseMap_with parseField (Some (createField <$> props))) as ->
      by by destruct kind.
    rewrite fmap_is_Some. split.
    + intros [result Hr]. apply parseMap_with_Some in Hr.
      intros key v Hv. apply (IH key v Hv).
      apply (Hr key (createField v)). by rewrite lookup_fmap, Hv.
    + intros H. apply parseMap_with_returns. intros key f.
      rewrite lookup_fmap. destruct (props !! key) as [v|] eqn:Hv; [|done].
      intros [= <-]. apply (IH key v Hv), (H key v Hv).
Qed.

(** X5.  One tag per object.  Every object that [createField] builds, at
    every depth, has exactly one of the six tag properties; numbers are held
    as strings, a [mapValue] always has [fields] and an [arrayValue] always
    has [values]. *)
Theorem createField_encoded_shape (value : Value) :
  encoded_shape (createField value) = true.
Proof.
  induction value as [| |b|n|s|d|items IH|kind props IH|z] using Value_nested_ind;
    try done.
  - simpl. by destruct (isInteger n).
  - change (forallb encoded_shape (createField <$> items) = true).
    rewrite forallb_forall. intros f Hf%list_elem_of_In.
    apply list_elem_of_fmap in Hf as (v & -> & Hv).
    rewrite Forall_forall in IH. by apply IH.
  - destruct kind; [| | |done];
      (change (map_fold (λ (_ : string) f b, encoded_shape f && b) true
                 (createField <$> props) && true = true);
       rewrite andb_true_r;
       apply (map_fold_and (λ _ f, encoded_shape f)); intros key f;
       rewrite lookup_fmap; destruct (props !! key) as [v|] eqn:Hv; [|done];
       intros [= <-]; by apply (IH key v Hv)).
Qed.

(** What [toString] prints is never the empty string. *)
Lemma toString_truthy (n : number) : truthy_string (toString n) = true.
Proof.
  destruct n as [|[]|negative s e]; [done..|].
  unfold toString. destruct (N.eqb_spec s 0) as [|Hs]; [done|].
  destruct (digits_split s Hs) as (ds & zeros & Htrim & _ & _ & Hprint & Hnz).
  unfold significand. rewrite Htrim.
  pose proof (digits_leading _ Hnz) as Hlead. rewrite Hprint in Hlead.
  destruct (print_decimal_first ds (e + Z.of_nat zeros) Hlead)
    as (c & rest & -> & _).
  by destruct negative.
Qed.

(** X15.  A number comes back as a number.  Encoding a number and decoding
    the result never gives [null] -- not even for zero, which is falsy: its
    payload is the non-empty string ["0"] -- but the number that
    [parseInt] or [parseFloat] reads from the printed form; for an integer
    below [10^21] in magnitude that is the integer itself. *)
Theorem numbers_come_back_as_numbers :
  (∀ n, parseField (createField (VNumber n)) = Some (VNumber (reparsed n)))
  ∧ (∀ z : Z, (Z.abs z < 10 ^ 21)%Z → reparsed (of_Z z) = of_Z z).
Proof.
  split.
  - intros n. pose proof (toString_truthy n) as H. unfold reparsed. simpl.
    destruct (isInteger n); simpl; by rewrite H.
  - by intros z [Hread _]%of_Z_faithful%number_round_trip.
Qed.

End EncodedValues.

(** ** Encoding of object graphs *)

Section Graphs.

Implicit Types (graph : list Node) (slot : Slot).

(** On a value that is a tree, no node is entered. *)
Lemma createField_at_immediate graph depth value :
  createField_at graph depth (Immediate value) = Some (createField value).
Proof. by destruct depth. Qed.

(** When the call on a node returns, the nested calls have returned. *)
Lemma createField_at_slots graph depth address node slot :
  graph !! address = Some node → slot ∈ slots node →
  is_Some (createField_at graph (S depth) (Reference address)) →
  is_Some (createField_at graph depth slot).
Proof.
  intros Hnode Hslot. simpl. rewrite Hnode.
  destruct node as [items|entries]; simpl in Hslot;
    rewrite fmap_is_Some, mapM_is_Some, Forall_forall.
  - intros H. by apply H.
  - intros H. apply list_elem_of_fmap in Hslot as ([key s] & -> & Hentry).
    specialize (H _ Hentry). simpl in H. by apply fmap_is_Some in H.
Qed.

(** The call on a node returns when the nested calls return. *)
Lemma createField_at_node graph depth address node :
  graph !! address = Some node →
  Forall (λ slot, is_Some (createField_at graph depth slot)) (slots node) →
  is_Some (createField_at graph (S depth) (Reference address)).
Proof.
  intros Hnode Hslots. simpl. rewrite Hnode.
  destruct node as [items|entries]; simpl in Hslots;
    rewrite fmap_is_Some, mapM_is_Some; [done|].
  rewrite Forall_fmap in Hslots. eapply Forall_impl; [exact Hslots|].
  intros [key s] Hs. simpl in *. by apply fmap_is_Some.
Qed.





End Graphs.

(** ** Fetched documents *)

Section Documents.

Lemma append_assoc (a b c : string) : (a +:+ b) +:+ c = a +:+ (b +:+ c).
Proof.
  induction a as [|x a IH]; [done|].
  change (String x ((a +:+ b) +:+ c) = String x (a +:+ (b +:+ c))).
  by rewrite IH.
Qed.

(** [last_segment_from] reads its input from left to right. *)
Lemma last_segment_from_app sep (a b : string) : ∀ acc,
  Str.last_segment_from sep (a +:+ b) acc
  = Str.last_segment_from sep b (Str.last_segment_from sep a acc).
Proof.
  induction a as [|c a IH]; intros acc; simpl; [done|].
  destruct (Ascii.eqb c sep); apply IH.
Qed.

Lemma last_segment_from_none sep (s : string) : ∀ acc,
  occurs sep s = false → Str.last_segment_from sep s acc = acc +:+ s.
Proof.
  induction s as [|c s IH]; intros acc; simpl.
  - intros _. by rewrite append_nil_r.
  - intros [Hc Hs]%orb_false_iff. rewrite Hc, (IH _ Hs).
    by rewrite append_assoc.
Qed.

(** The last segment of [a/s] is the last segment of [s]. *)
Lemma last_segment_after sep (a s : string) :
  Str.last_segment sep (a +:+ String sep s) = Str.last_segment sep s.
Proof.
  unfold Str.last_segment. rewrite last_segment_from_app. simpl.
  by rewrite Ascii.eqb_refl.
Qed.

(** X10.  Requested ids come back.  When no requested id contains a slash,
    the last path segments of the document names that [getDocumentsForIds]
    asks for -- which is how the [id] of a fetched document is computed --
    are the requested ids, in order. *)
Theorem requested_ids_come_back (collectionKey : string) (documentIds : list string) :
  Forall (λ id, occurs "/" id = false) documentIds →
  Str.last_segment "/" <$> batchGet_documents collectionKey documentIds
  = documentIds.
Proof.
  intros H. unfold batchGet_documents. rewrite <- list_fmap_compose.
  rewrite <- (list_fmap_id documentIds) at 2.
  apply Forall_fmap_ext_1. eapply Forall_impl; [exact H|].
  intros id Hid. simpl.
  change ("/" +:+ collectionKey +:+ "/" +:+ id)
    with (String "/" (collectionKey +:+ "/" +:+ id)).
  rewrite last_segment_after.
  change ("/" +:+ id) with (String "/" id).
  rewrite last_segment_after.
  unfold Str.last_segment. by rewrite last_segment_from_none.
Qed.

Lemma requested_ids_come_back_witness :
  Forall (λ id, occurs "/" id = false) ["a1"; "b2"; "c3"]
  ∧ Str.last_segment "/"
      <$> batchGet_documents VocabSet.collectionKey ["a1"; "b2"; "c3"]
    = ["a1"; "b2"; "c3"].
Proof.
  assert (H : Forall (λ id, occurs "/" id = false) ["a1"; "b2"; "c3"])
    by (repeat constructor).
  split; [exact H|]. exact (requested_ids_come_back _ _ H).
Defined.

(** The properties of the object literal that the fetch functions build
    around the decoded fields: the two timestamps win over the fields, and
    the fields win over [id]. *)
Lemma document_literal_lookup (decoded : gmap string Value) (id ct ut : Value) key :
  (<["updateTime" := ut]> (<["createTime" := ct]> (decoded ∪ {["id" := id]})))
    !! key
  = if String.eqb key "updateTime" then Some ut
    else if String.eqb key "createTime" then Some ct
    else if String.eqb key "id" then Some (default id (decoded !! "id"))
    else decoded !! key.
Proof.
  destruct (String.eqb_spec key "updateTime") as [->|H1];
    [by rewrite lookup_insert_eq|].
  rewrite lookup_insert_ne by done.
  destruct (String.eqb_spec key "createTime") as [->|H2];
    [by rewrite lookup_insert_eq|].
  rewrite lookup_insert_ne by done.
  rewrite lookup_union.
  destruct (String.eqb_spec key "id") as [->|H3].
  - rewrite lookup_singleton_eq. by destruct (decoded !! "id").
  - rewrite lookup_singleton_ne by done. by destruct (decoded !! key).
Qed.

(** X8.  The properties of a fetched document.  For a document whose fields
    are JSON objects, [getDocuments] and [getDocumentsForIds] build a plain
    object in which [createTime] and [updateTime] are the dates of the
    resource, also when the document has fields of these names; [id] is the
    decoded field named [id] when the document has one, and the last segment
    of the resource name otherwise; and every other property is the decoded
    field of that name. *)
Theorem decodeDocument_properties (doc : DocumentJson) :
  fields_null_free doc = true →
  ∃ props,
    decodeDocument doc = Some (VObject Plain props)
    ∧ props !! "createTime" = Some (VObject (Date (createTime doc)) ∅)
    ∧ props !! "updateTime" = Some (VObject (Date (updateTime doc)) ∅)
    ∧ props !! "id"
      = Some (default (VString (Str.last_segment "/" (name doc)))
                (field_of (fields doc) "id" ≫= parseField))
    ∧ ∀ key, key ≠ "id" → key ≠ "createTime" → key ≠ "updateTime" →
             props !! key
             = if String.eqb key "__proto__" then None
               else field_of (fields doc) key ≫= parseField.
Proof.
  intros Hnf. destruct (parseMap_returns (fields doc) Hnf) as [decoded Hd].
  pose proof (parseMap_result _ _ Hd) as Hlook.
  unfold decodeDocument. rewrite Hd. simpl. eexists. split; [reflexivity|].
  split_and!.
  - by rewrite document_literal_lookup.
  - by rewrite document_literal_lookup.
  - rewrite document_literal_lookup. simpl. by rewrite Hlook.
  - intros key H1 H2 H3. rewrite document_literal_lookup.
    apply String.eqb_neq in H1, H2, H3. by rewrite H1, H2, H3, Hlook.
Qed.

Lemma decodeDocument_properties_witness :
  fields_null_free private_set = true
  ∧ ∃ props,
      decodeDocument private_set = Some (VObject Plain props)
      ∧ props !! "createTime" = Some (VObject (Date "2023-01-01T00:00:00Z") ∅)
      ∧ props !! "id" = Some (VString "legacy-7")
      ∧ props !! "public" = Some VNull.
Proof.
  assert (H : fields_null_free private_set = true) by (by vm_compute).
  split; [exact H|].
  destruct (decodeDocument_properties private_set H)
    as (props & Hdoc & Hct & _ & Hid & Hother).
  exists props. split_and!; [exact Hdoc|exact Hct|exact Hid|].
  by rewrite (Hother "public").
Defined.

(** X7.  The properties of a document fetched by [getDocument].  When the
    fields of the response are JSON objects, [getDocument] returns a plain
    object with the same precedence: the two dates of the response, [id] from
    a field named [id] if there is one and the requested id otherwise, and
    the decoded fields.  An error response, which has no [fields] and no
    timestamps, does not make it throw: the result then has the requested
    [id] and two invalid dates, and nothing else. *)
Theorem getDocument_properties (documentId : Value) (json : GetResponse.t) :
  null_free (FObject None None None None (Some (GetResponse.fields json)) None)
  = true →
  ∃ props,
    getDocument documentId json = Some (VObject Plain props)
    ∧ props !! "createTime"
      = Some (VObject (Date (default "undefined" (GetResponse.createTime json))) ∅)
    ∧ props !! "updateTime"
      = Some (VObject (Date (default "undefined" (GetResponse.updateTime json))) ∅)
    ∧ props !! "id"
      = Some (default documentId
                (field_of (GetResponse.fields json) "id" ≫= parseField))
    ∧ (∀ key, key ≠ "id" → key ≠ "createTime" → key ≠ "updateTime" →
              props !! key
              = if String.eqb key "__proto__" then None
                else field_of (GetResponse.fields json) key ≫= parseField)
    ∧ (GetResponse.fields json = None →
       props = {[ "id" := documentId;
                  "createTime" := new_Date_parse (GetResponse.createTime json);
                  "updateTime" := new_Date_parse (GetResponse.updateTime json) ]}).
Proof.
  intros Hnf.
  destruct (parseMap_returns (GetResponse.fields json) Hnf) as [decoded Hd].
  pose proof (parseMap_result _ _ Hd) as Hlook.
  unfold getDocument. rewrite Hd. simpl. eexists. split; [reflexivity|].
  split_and!.
  - by rewrite document_literal_lookup.
  - by rewrite document_literal_lookup.
  - rewrite document_literal_lookup. simpl. by rewrite Hlook.
  - intros key H1 H2 H3. rewrite document_literal_lookup.
    apply String.eqb_neq in H1, H2, H3. by rewrite H1, H2, H3, Hlook.
  - intros Hnone. rewrite Hnone in Hd. injection Hd as <-.
    apply map_eq. intros key. rewrite document_literal_lookup.
    destruct (String.eqb_spec key "updateTime") as [->|H1]; [done|].
    destruct (String.eqb_spec key "createTime") as [->|H2]; [done|].
    destruct (String.eqb_spec key "id") as [->|H3]; [done|].
    rewrite lookup_empty. symmetry.
    rewrite !lookup_insert_ne by done. by apply lookup_singleton_ne.
Qed.

Lemma getDocument_properties_witness :
  null_free (FObject None None None None (Some None) None) = true
  ∧ ∃ props,
      getDocument (VString "zz") (GetResponse.mk None None None)
      = Some (VObject Plain props)
      ∧ props = {[ "id" := VString "zz";
                   "createTime" := VObject (Date "undefined") ∅;
                   "updateTime" := VObject (Date "undefined") ∅ ]}.
Proof.
  assert (H : null_free (FObject None None None None (Some None) None) = true)
    by reflexivity.
  split; [exact H|].
  destruct (getDocument_properties (VString "zz") (GetResponse.mk None None None) H)
    as (props & Hdoc & _ & _ & _ & _ & Hempty).
  exists props. split; [exact Hdoc|]. by apply Hempty.
Defined.

(** X9.  [getDocuments] needs a document in every entry.  For a response in
    which the fields of every document are JSON objects, [getDocuments]
    returns exactly when every entry of the response has a [document]
    property -- unlike [getDocumentsForIds], it does not skip the entries
    without one, it throws on them -- and it then returns one decoded document
    per entry, in order. *)
Theorem getDocuments_needs_documents (json : list QueryEntry) :
  Forall (λ entry, ∀ doc, document entry = Some doc → fields_null_free doc = true)
         json →
  (is_Some (getDocuments json)
   ↔ Forall (λ entry, is_Some (document entry)) json)
  ∧ ∀ docs,
      getDocuments json = Some docs →
      Forall2 (λ entry decoded,
                 ∃ doc, document entry = Some doc
                        ∧ decodeDocument doc = Some decoded)
              json docs.
Proof.
  intros Hnf. unfold getDocuments. split.
  - rewrite mapM_is_Some. rewrite !Forall_forall in *.
    split; intros H entry Hentry; specialize (H entry Hentry); simpl in *.
    + destruct (document entry); [by eexists|by destruct H].
    + destruct H as [doc Hdoc]. rewrite Hdoc.
      destruct (parseMap_returns (fields doc) (Hnf entry Hentry doc Hdoc))
        as [decoded Hd].
      unfold decodeDocument. rewrite Hd. by eexists.
  - intros docs Hdocs%mapM_Some. eapply Forall2_impl; [exact Hdocs|].
    intros entry decoded H. simpl in H.
    destruct (document entry) as [doc|]; [|done]. by exists doc.
Qed.

Lemma getDocuments_needs_documents_witness :
  Forall (λ entry, ∀ doc, document entry = Some doc → fields_null_free doc = true)
         query_response
  ∧ Forall (λ entry, is_Some (document entry)) query_response
  ∧ is_Some (getDocuments query_response).
Proof.
  assert (H : Forall (λ entry, ∀ doc, document entry = Some doc →
                               fields_null_free doc = true) query_response).
  { repeat constructor; intros doc Hdoc; simplify_eq/=; by vm_compute. }
  assert (Hall : Forall (λ entry, is_Some (document entry)) query_response).
  { repeat constructor; by eexists. }
  split_and!; [exact H|exact Hall|].
  by apply (proj1 (getDocuments_needs_documents query_response H)).
Defined.

(** An entry without [document], such as one that holds only a read time,
    makes [getDocuments] throw, wherever it stands in the response. *)
Example getDocuments_without_match :
  getDocuments [mkQueryEntry None (Some "2023-03-01T00:00:00Z")] = None
  ∧ getDocuments (query_response ++ [mkQueryEntry None None]) = None.
Proof. split; by vm_compute. Qed.

End Documents.

(** ** Instances of the document classes *)

Section Classes.

(** A property read from decoded fields is [undefined] (no such field) or a
    decoded value. *)
Lemma property_decoded (fields : option (gmap string Field)) decoded key :
  parseMap fields = Some decoded →
  property decoded key = VUndefined ∨ decoded_shape (property decoded key) = true.
Proof.
  intros H. unfold property. rewrite (parseMap_result _ _ H).
  destruct (String.eqb key "__proto__"); [by left|].
  destruct (field_of fields key) as [f|]; [|by left]. simpl.
  destruct (parseField f) as [v|] eqn:Hv; [|by left].
  right. by apply (parseField_shape f).
Qed.

(** A property of a fetched document, other than the three that the fetch
    functions set themselves, is never [false] and never the empty string. *)
Lemma literal_property_not_falsy fields decoded (id ct ut : Value) key :
  parseMap fields = Some decoded →
  key ≠ "id" → key ≠ "createTime" → key ≠ "updateTime" →
  let data :=
    <["updateTime" := ut]> (<["createTime" := ct]> (decoded ∪ {["id" := id]})) in
  property data key ≠ VBoolean false ∧ property data key ≠ VString EmptyString.
Proof.
  intros H H1 H2 H3 data. unfold property, data.
  rewrite document_literal_lookup.
  apply String.eqb_neq in H1, H2, H3. rewrite H1, H2, H3.
  destruct (property_decoded fields decoded key H) as [Hu|Hd].
  - unfold property in Hu. rewrite Hu. done.
  - by apply decoded_shape_not_falsy.
Qed.

(** Every instance that a static fetch method returns is built from a
    document literal around decoded fields. *)
Lemma fetched_instances {T} (new_this : gmap string Value → T) (P : T → Prop) :
  (∀ fields decoded id ct ut,
     parseMap fields = Some decoded →
     P (new_this (<["updateTime" := ut]> (<["createTime" := ct]>
                    (decoded ∪ {["id" := id]}))))) →
  (∀ id json instance,
     Document.get new_this id json = Some instance → P instance)
  ∧ (∀ json instances,
       Document.getDocuments new_this json = Some instances →
       Forall P instances)
  ∧ (∀ json instances,
       Document.getDocumentsForIds new_this json = Some instances →
       Forall P instances).
Proof.
  intros HP.
  assert (Hdoc : ∀ doc v instance,
            decodeDocument doc = Some v →
            Document.construct new_this v = Some instance → P instance).
  { intros doc v instance Hv Hi. unfold decodeDocument in Hv.
    destruct (parseMap (fields doc)) as [decoded|] eqn:Hd; [|done].
    simpl in Hv. injection Hv as <-. simpl in Hi. injection Hi as <-.
    by eapply HP. }
  split_and!.
  - intros id json instance. unfold Document.get, getDocument.
    destruct (parseMap (GetResponse.fields json)) as [decoded|] eqn:Hd; [|done].
    simpl. intros [= <-]. by eapply HP.
  - intros json instances. unfold Document.getDocuments, getDocuments.
    destruct (mapM _ json) as [docs|] eqn:Hdocs; [|done]. simpl.
    intros Hi%mapM_Some. apply mapM_Some in Hdocs.
    revert instances Hi. induction Hdocs as [|entry v json docs Hv _ IH];
      intros instances Hi.
    + apply Forall2_nil_inv_l in Hi as ->. constructor.
    + apply Forall2_cons_inv_l in Hi as (instance & rest & Hinst & Hrest & ->).
      constructor; [|by apply IH].
      destruct (document entry) as [doc|]; [|done]. by eapply Hdoc.
  - intros json instances. unfold Document.getDocumentsForIds, getDocumentsForIds.
    destruct (mapM _ (filter _ json)) as [docs|] eqn:Hdocs; [|done]. simpl.
    intros Hi%mapM_Some. apply mapM_Some in Hdocs.
    revert instances Hi.
    induction Hdocs as [|entry v json' docs Hv _ IH]; intros instances Hi.
    + apply Forall2_nil_inv_l in Hi as ->. constructor.
    + apply Forall2_cons_inv_l in Hi as (instance & rest & Hinst & Hrest & ->).
      constructor; [|by apply IH].
      destruct (found entry) as [doc|]; [|done]. by eapply Hdoc.
Qed.

(** X12.  A fetched flag is never [false].  Whatever the response, the
    [public] property of a [VocabSet] or [MetaSet] that [get], [getDocuments]
    or [getDocumentsForIds] returns is different from [false], and the
    [description] of a [VocabSet] is different from the empty string: a set
    stored as private, or with an empty description, is read back with
    [null] in their place. *)
Theorem fetched_public_flag_never_false :
  let vocab_set s :=
    VocabSet.public s ≠ VBoolean false
    ∧ VocabSet.description s ≠ VString EmptyString in
  let meta_set s := MetaSet.public s ≠ VBoolean false in
  (∀ id json s, Document.get VocabSet.new id json = Some s → vocab_set s)
  ∧ (∀ json sets,
       Document.getDocuments VocabSet.new json = Some sets →
       Forall vocab_set sets)
  ∧ (∀ json sets,
       Document.getDocumentsForIds VocabSet.new json = Some sets →
       Forall vocab_set sets)
  ∧ (∀ id json s, Document.get MetaSet.new id json = Some s → meta_set s)
  ∧ (∀ json sets,
       Document.getDocuments MetaSet.new json = Some sets →
       Forall meta_set sets)
  ∧ (∀ json sets,
       Document.getDocumentsForIds MetaSet.new json = Some sets →
       Forall meta_set sets).
Proof.
  intros vocab_set meta_set.
  destruct (fetched_instances VocabSet.new vocab_set) as (H1 & H2 & H3).
  { intros fields decoded id ct ut Hd. split; simpl.
    - by apply (literal_property_not_falsy fields).
    - by apply (literal_property_not_falsy fields). }
  destruct (fetched_instances MetaSet.new meta_set) as (H4 & H5 & H6).
  { intros fields decoded id ct ut Hd.
    by apply (literal_property_not_falsy fields). }
  done.
Qed.

(** The stored private set is read back with [public] and [description]
    [null]; its [id] is the field of that name, not the requested id, and its
    [createTime] is the date of the resource, not the field of that name. *)
Example private_set_instance :
  Document.get VocabSet.new (VString "a1") get_response
  = Some (VocabSet.mk
            (Document.mk (VString "legacy-7")
               (VObject (Date "2023-01-01T00:00:00Z") ∅)
               (VObject (Date "2023-01-02T00:00:00Z") ∅))
            (VString "Verbs") VNull VUndefined VNull VUndefined).
Proof. by vm_compute. Qed.

(** A document whose fields are JSON objects is decoded to an object
    literal. *)
Lemma decodeDocument_literal (doc : DocumentJson) :
  fields_null_free doc = true →
  ∃ data, decodeDocument doc = Some (VObject Plain data).
Proof.
  intros Hnf. destruct (parseMap_returns (fields doc) Hnf) as [decoded Hd].
  unfold decodeDocument. rewrite Hd. by eexists.
Qed.

(** X14.  One instance per found document.  For a response in which the
    fields of every found document are JSON objects, the static method
    [getDocumentsForIds] of a class returns the instances that the
    constructor of the class builds from the decoded found documents, one per
    found entry and in response order. *)
Theorem getDocumentsForIds_instances {T} (new_this : gmap string Value → T)
    (json : list BatchEntry) :
  Forall (λ entry, ∀ doc, found entry = Some doc → fields_null_free doc = true)
         json →
  ∃ instances,
    Document.getDocumentsForIds new_this json = Some instances
    ∧ Forall2 (λ doc instance,
                 ∃ data, decodeDocument doc = Some (VObject Plain data)
                         ∧ instance = new_this data)
        (omap found json) instances.
Proof.
  unfold Document.getDocumentsForIds, getDocumentsForIds.
  induction json as [|entry json IH]; intros H.
  - exists []. split; [done|constructor].
  - apply Forall_cons in H as [Hentry Hrest].
    destruct (IH Hrest) as (instances & Hrun & Hall). clear IH.
    destruct (mapM _ (filter _ json)) as [docs|] eqn:Hdocs; [|done].
    simpl in Hrun.
    destruct entry as [[doc|] miss].
    + destruct (decodeDocument_literal doc (Hentry doc eq_refl)) as [data Hdata].
      exists (new_this data :: instances).
      rewrite filter_cons_True by (simpl; eauto). simpl.
      rewrite Hdata. simpl. rewrite Hdocs. simpl. rewrite Hrun. simpl.
      split; [done|]. constructor; [by exists data|done].
    + exists instances.
      rewrite filter_cons_False by (simpl; by intros [? ?]). simpl.
      rewrite Hdocs. simpl. by split.
Qed.

Lemma getDocumentsForIds_instances_witness :
  Forall (λ entry, ∀ doc, found entry = Some doc → fields_null_free doc = true)
         batch_response
  ∧ ∃ sets,
      Document.getDocumentsForIds VocabSet.new batch_response = Some sets
      ∧ length sets = 2.
Proof.
  assert (H : Forall (λ entry, ∀ doc, found entry = Some doc →
                               fields_null_free doc = true) batch_response).
  { repeat constructor; intros doc Hdoc; simplify_eq/=; by vm_compute. }
  split; [exact H|].
  destruct (getDocumentsForIds_instances VocabSet.new batch_response H)
    as (sets & Hrun & Hall).
  exists sets. split; [exact Hrun|].
  by rewrite <- (Forall2_length _ _ _ Hall).
Defined.

End Classes.

(** ** The order of calls *)

Section CallOrder.

Implicit Types (σ : store) (cs : list Call).

(** X11.  Calls to different methods commute.  Two call sequences that make
    the same [where] calls in the same order, the same [orderBy] calls in the
    same order, and end with the same last [limit] and [setOffset], build
    the same descriptor, however the calls are interleaved and wherever
    [build] is called in between. *)
Theorem descriptor_depends_on_clauses cs cs' σ σ' :
  leaves_of cs = leaves_of cs' → orders_of cs = orders_of cs' →
  last_limit None cs = last_limit None cs' →
  last_offset None cs = last_offset None cs' →
  ∃ this σ1 this' σ1',
    session cs σ = Some (this, σ1)
    ∧ session cs' σ' = Some (this', σ1')
    ∧ ∀ depth,
        read_descriptor (S (S depth)) σ1 (QueryBuilder.query this)
        = read_descriptor (S (S depth)) σ1' (QueryBuilder.query this').
Proof.
  intros Hl Ho Hlim Hoff.
  destruct (session_represents cs σ) as (this & σ1 & Hrun & Hrep).
  destruct (session_represents cs' σ') as (this' & σ1' & Hrun' & Hrep').
  exists this, σ1, this', σ1'. split_and!; [done..|]. intros depth.
  rewrite (read_represented _ _ _ _ _ _ depth Hrep).
  rewrite (read_represented _ _ _ _ _ _ depth Hrep').
  by rewrite Hl, Ho, Hlim, Hoff.
Qed.

Lemma descriptor_depends_on_clauses_witness :
  ∃ this σ1 this' σ1',
    session filter_first [] = Some (this, σ1)
    ∧ session limit_first [] = Some (this', σ1')
    ∧ ∀ depth,
        read_descriptor (S (S depth)) σ1 (QueryBuilder.query this)
        = read_descriptor (S (S depth)) σ1' (QueryBuilder.query this').
Proof.
  apply (descriptor_depends_on_clauses filter_first limit_first [] []);
    reflexivity.
Defined.

End CallOrder.

(** ** Independent builders *)

Section Independence.

Implicit Types (σ : store) (this a b : QueryBuilder.t) (cs : list Call).

(** *** What a computation that has returned has done *)

Lemma bind_inv {A B} (c : M A) (k : A → M B) σ r :
  bind c k σ = Some r → ∃ x σ1, c σ = Some (x, σ1) ∧ k x σ1 = Some r.
Proof. unfold bind. destruct (c σ) as [[x σ1]|]; [eauto|done]. Qed.

Lemma load_inv l σ o σ' :
  load l σ = Some (o, σ') → σ' = σ ∧ σ !! l = Some o.
Proof. unfold load. destruct (σ !! l); [|done]. by intros [= -> ->]. Qed.

Lemma load_query_inv l σ q σ' :
  load_query l σ = Some (q, σ') → σ' = σ ∧ σ !! l = Some (QueryObject q).
Proof.
  intros (o & σ1 & [-> Ho]%load_inv & H)%bind_inv.
  destruct o; try done. by injection H as -> ->.
Qed.

Lemma update_inv l o σ u σ' :
  update l o σ = Some (u, σ') → σ' = <[l := o]> σ ∧ is_Some (σ !! l).
Proof.
  unfold update. destruct (decide _) as [Hl|]; [|done]. intros [= <-].
  split; [done|]. by apply lookup_lt_is_Some.
Qed.

Lemma alloc_inv o σ l σ' :
  alloc o σ = Some (l, σ') → l = length σ ∧ σ' = σ ++ [o].
Proof. by intros [= <- <-]. Qed.

(** An object found after an allocation that is not of the shape of the
    new object was there before. *)
Lemma lookup_alloc_inv σ o l x :
  (σ ++ [o]) !! l = Some x → shape_of x ≠ shape_of o → σ !! l = Some x.
Proof.
  intros [H|[_ H]]%lookup_app_Some Hne; [done|].
  apply list_lookup_singleton_Some in H as [_ ->]. done.
Qed.

Lemma ret_inv {A} (x y : A) σ σ' : ret x σ = Some (y, σ') → y = x ∧ σ' = σ.
Proof. by intros [= -> ->]. Qed.

(** *** Objects that a call leaves alone *)

Lemma outside_refl L σ : outside L σ σ.
Proof. by intros l o H _. Qed.

Lemma outside_alloc L σ σ1 o : outside L σ σ1 → outside L σ (σ1 ++ [o]).
Proof. intros H l x Hl HL. apply lookup_alloc_old. by apply H. Qed.

Lemma outside_update L σ σ1 l o :
  outside L σ σ1 → l ∈ L ∨ (length σ ≤ l)%nat → outside L σ (<[l := o]> σ1).
Proof.
  intros H Hl k x Hk HL. rewrite list_lookup_insert_ne; [by apply H|].
  intros ->. destruct Hl as [|Hl]; [done|].
  apply lookup_lt_Some in Hk. lia.
Qed.

Lemma anchors_eq σ this q :
  σ !! QueryBuilder.query this = Some (QueryObject q) →
  anchors σ this
  = QueryBuilder.query this :: option_list (q_where q) ++ option_list (q_orderBy q).
Proof. unfold anchors. by intros ->. Qed.

(** Follows the run [H] of a method through its loads, updates and
    allocations. *)
Ltac run H :=
  repeat first
    [ apply bind_inv in H as (? & ? & ?%load_query_inv & H); destruct_and?; subst
    | apply bind_inv in H as (? & ? & ?%load_inv & H); destruct_and?; subst
    | apply bind_inv in H as (? & ? & ?%update_inv & H); destruct_and?; subst
    | apply bind_inv in H as (? & ? & ?%ret_inv & H); destruct_and?; subst
    | apply bind_inv in H as (? & ? & ?%alloc_inv & H); destruct_and?; subst
    | apply ret_inv in H as [_ ->] ].

(** Names the hypothesis that gives the query object of the builder. *)
Ltac query_object Hq :=
  lazymatch goal with
  | H : ?σ !! QueryBuilder.query _ = Some (QueryObject _) |- framed ?σ _ _ =>
      pose proof H as Hq
  end.

(** Proves the first two parts of [framed] for a store reached by
    allocations and updates, and leaves the part on the anchors. *)
Ltac framed_query Hq :=
  split_and!;
  [ repeat first [apply outside_alloc | apply outside_update | apply outside_refl];
    rewrite ?(anchors_eq _ _ _ Hq), ?elem_of_cons, ?elem_of_app; auto
  | preserved
  | ].

(** *** Each method is framed *)

Lemma limit_framed σ this limit σ' :
  QueryBuilder.limit this limit σ = Some (this, σ') → framed σ this σ'.
Proof.
  unfold QueryBuilder.limit. intros H. run H.
  query_object Hq.
  framed_query Hq.
  intros l. erewrite (anchors_eq (<[_ := _]> σ)) by by eapply lookup_update_same.
  rewrite (anchors_eq _ _ _ Hq). simpl. auto.
Qed.

Lemma setOffset_framed σ this offset σ' :
  QueryBuilder.setOffset this offset σ = Some (this, σ') → framed σ this σ'.
Proof.
  unfold QueryBuilder.setOffset. intros H. run H.
  query_object Hq.
  framed_query Hq.
  intros l. erewrite (anchors_eq (<[_ := _]> σ)) by by eapply lookup_update_same.
  rewrite (anchors_eq _ _ _ Hq). simpl. auto.
Qed.

Lemma where_framed σ this field op value σ' :
  QueryBuilder.where_ this field op value σ = Some (this, σ') → framed σ this σ'.
Proof.
  unfold QueryBuilder.where_. intros H. run H.
  lazymatch goal with
  | H1 : (σ ++ [?o]) !! _ = Some (QueryObject ?x) |- _ =>
      set (new := o) in *; rename H1 into Hq1; rename x into q
  end.
  assert (Hq : σ !! QueryBuilder.query this = Some (QueryObject q))
    by by eapply lookup_alloc_inv.
  destruct (q_where q) as [w|] eqn:Hw.
  - run H.
    lazymatch goal with
    | H1 : (σ ++ [new]) !! w = Some ?x |- _ => rename H1 into Hw1; rename x into filter
    end.
    destruct filter as [|f o v|o filters|]; try done.
    + (* the leaf is replaced by a new composite *)
      run H.
      set (comp := CompositeFilterObject "AND" [w; length σ]) in *.
      assert (Hq2 : ((σ ++ [new]) ++ [comp]) !! QueryBuilder.query this
                    = Some (QueryObject q)) by by apply lookup_alloc_old.
      framed_query Hq.
      intros l. erewrite (anchors_eq (<[_ := _]> _)) by by eapply lookup_update_same.
      simpl. rewrite (anchors_eq _ _ _ Hq), !elem_of_cons, !elem_of_app.
      rewrite List.length_app. simpl. intros [->|[->|H]]; [auto|right; lia|auto].
    + (* the composite is updated in place *)
      run H.
      assert (Hne : w ≠ QueryBuilder.query this) by (intros ->; congruence).
      framed_query Hq.
      { rewrite Hw. simpl. left. right. left. set_solver. }
      intros l.
      erewrite (anchors_eq (<[_ := _]> _))
        by (rewrite list_lookup_insert_ne by done; exact Hq1).
      rewrite (anchors_eq _ _ _ Hq). auto.
  - run H. framed_query Hq.
    intros l. erewrite (anchors_eq (<[_ := _]> _)) by by eapply lookup_update_same.
    simpl. rewrite (anchors_eq _ _ _ Hq), !elem_of_cons, !elem_of_app.
    intros [->|[->|H]]; [auto|right; lia|auto].
Qed.

Lemma orderBy_framed σ this field direction σ' :
  QueryBuilder.orderBy this field direction σ = Some (this, σ') →
  framed σ this σ'.
Proof.
  unfold QueryBuilder.orderBy. intros H. run H.
  lazymatch goal with
  | H1 : σ !! _ = Some (QueryObject ?x) |- _ => rename H1 into Hq; rename x into q
  end.
  apply bind_inv in H as (u & σ1 & Hfirst & H).
  destruct (q_orderBy q) as [a|] eqn:Ha.
  - (* the array exists *)
    apply ret_inv in Hfirst as [_ ->]. run H.
    lazymatch goal with
    | H1 : σ !! _ = Some (QueryObject ?x) |- _ =>
        rewrite Hq in H1; injection H1 as <-
    end.
    rewrite Ha in H. run H.
    lazymatch goal with
    | H1 : σ !! a = Some ?x |- _ => rename H1 into Harr; rename x into o
    end.
    destruct o as [| | |items]; try done. run H.
    assert (Hne : a ≠ QueryBuilder.query this) by (intros ->; congruence).
    framed_query Hq.
    { rewrite Ha. left. right. set_solver. }
    intros l.
    erewrite (anchors_eq (<[_ := _]> _))
      by (rewrite list_lookup_insert_ne by done; exact Hq).
    rewrite (anchors_eq _ _ _ Hq). auto.
  - (* the array is created first *)
    run Hfirst. apply update_inv in Hfirst as [-> _].
    set (arr := OrderArray []) in *.
    set (q' := mkQuery (q_where q) (Some (length σ)) (q_limit q) (q_offset q)) in *.
    assert (Hq1 : (σ ++ [arr]) !! QueryBuilder.query this = Some (QueryObject q))
      by by apply lookup_alloc_old.
    assert (Hq2 : <[QueryBuilder.query this := QueryObject q']> (σ ++ [arr])
                    !! QueryBuilder.query this = Some (QueryObject q'))
      by by eapply lookup_update_same.
    run H.
    match goal with
    | H1 : <[_ := _]> _ !! QueryBuilder.query this = Some (QueryObject ?x) |- _ =>
        is_var x; assert (x = q') as -> by congruence; clear H1
    end.
    simpl in H. run H.
    lazymatch goal with
    | H1 : <[_ := _]> _ !! length σ = Some ?x |- _ =>
        rename H1 into Harr; rename x into o
    end.
    assert (Hne : QueryBuilder.query this ≠ length σ).
    { apply lookup_lt_Some in Hq. lia. }
    rewrite list_lookup_insert_ne, lookup_alloc_new in Harr by done.
    injection Harr as <-. run H.
    assert (Harr : <[QueryBuilder.query this := QueryObject q']> (σ ++ [arr])
                     !! length σ = Some arr).
    { rewrite list_lookup_insert_ne by done. apply lookup_alloc_new. }
    framed_query Hq.
    intros l.
    erewrite (anchors_eq (<[_ := _]> _))
      by (rewrite list_lookup_insert_ne by done; exact Hq2).
    simpl. rewrite (anchors_eq _ _ _ Hq), !elem_of_cons, !elem_of_app.
    intros [->|[H|H]]; [auto..|].
    apply list_elem_of_singleton in H as ->. right. lia.
Qed.

Lemma call_framed σ this c σ' :
  call this c σ = Some (this, σ') → framed σ this σ'.
Proof.
  destruct c; simpl.
  - apply where_framed.
  - apply orderBy_framed.
  - apply limit_framed.
  - apply setOffset_framed.
  - intros H. run H.
    split_and!; [apply outside_refl|apply preserves_refl|auto].
Qed.

(** *** Two separate builders *)

(** The anchors of a builder are allocated. *)
Lemma anchors_allocated σ this xs os lim off l :
  represents σ this xs os lim off → l ∈ anchors σ this → (l < length σ)%nat.
Proof.
  intros (q & Hq & Hw & Ho & _). rewrite (anchors_eq _ _ _ Hq).
  rewrite elem_of_cons, elem_of_app. intros [->|[H|H]].
  - by eapply lookup_lt_Some.
  - destruct xs as [|x [|y xs]]; simpl in Hw.
    + rewrite Hw in H. by apply elem_of_nil in H.
    + destruct Hw as (k & Hk & Hleaf). rewrite Hk in H.
      apply list_elem_of_singleton in H as ->.
      destruct x; [|done]. by eapply lookup_lt_Some.
    + destruct Hw as (c & ls & Hc & Hcomp & _). rewrite Hc in H.
      apply list_elem_of_singleton in H as ->. by eapply lookup_lt_Some.
  - destruct os as [|o os]; simpl in Ho.
    + rewrite Ho in H. by apply elem_of_nil in H.
    + destruct Ho as (k & Hk & Harr). rewrite Hk in H.
      apply list_elem_of_singleton in H as ->. by eapply lookup_lt_Some.
Qed.

(** A call on [b] leaves the state of a separate builder [a] as it is. *)
Lemma represents_framed σ σ' a b xs os lim off :
  represents σ a xs os lim off → separate σ a b → framed σ b σ' →
  represents σ' a xs os lim off ∧ anchors σ' a = anchors σ a.
Proof.
  intros (q & Hq & Hw & Ho & Hlim & Hoff) Hsep (Hout & Hleaf & _).
  assert (Hin : ∀ l o, l ∈ anchors σ a → σ !! l = Some o → σ' !! l = Some o).
  { intros l o Hl Hlo. apply Hout; [done|]. by apply Hsep. }
  assert (Hq' : σ' !! QueryBuilder.query a = Some (QueryObject q)).
  { apply Hin; [|done]. rewrite (anchors_eq _ _ _ Hq). by left. }
  split; [|by rewrite (anchors_eq _ _ _ Hq), (anchors_eq _ _ _ Hq')].
  exists q. split_and!; [done| | |done|done].
  - destruct xs as [|x [|y xs]]; simpl in *; [done| |].
    + destruct Hw as (l & Hl & Hx). exists l. split; [done|].
      by eapply holds_leaf_preserved.
    + destruct Hw as (c & ls & Hc & Hcomp & Hls). exists c, ls.
      split_and!; [done| |by eapply Forall2_holds_leaf_preserved].
      apply Hin; [|done]. rewrite (anchors_eq _ _ _ Hq), Hc. set_solver.
  - destruct os as [|o os]; simpl in *; [done|].
    destruct Ho as (l & Hl & Harr). exists l. split; [done|].
    apply Hin; [|done]. rewrite (anchors_eq _ _ _ Hq), Hl. set_solver.
Qed.

(** One call on [a] keeps the invariant of the pair [a], [b]. *)
Lemma call_separate σ a b c xs os lim off xs' os' lim' off' :
  represents σ a xs os lim off → represents σ b xs' os' lim' off' →
  separate σ a b →
  ∃ σ', call a c σ = Some (a, σ')
        ∧ represents σ' a (xs ++ leaves_of [c]) (os ++ orders_of [c])
            (last_limit lim [c]) (last_offset off [c])
        ∧ represents σ' b xs' os' lim' off'
        ∧ separate σ' a b.
Proof.
  intros Ha Hb Hsep.
  destruct (call_represents _ _ _ _ _ _ c Ha) as (σ' & Hc & Ha').
  pose proof (call_framed _ _ _ _ Hc) as Hframed.
  assert (Hsym : separate σ b a) by (intros l Hlb Hla; by apply (Hsep l)).
  destruct (represents_framed _ _ _ _ _ _ _ _ Hb Hsym Hframed) as [Hb' Heq].
  exists σ'. split_and!; [done..|].
  intros l Hla Hlb. rewrite Heq in Hlb.
  pose proof (anchors_allocated _ _ _ _ _ _ _ Hb Hlb) as Hlt.
  destruct Hframed as (_ & _ & Hgrow).
  destruct (Hgrow l Hla) as [Hold|Hnew]; [by apply (Hsep l)|lia].
Qed.

Lemma calls_on_cons who w c ics :
  calls_on who ((w, c) :: ics)
  = if Bool.eqb w who then c :: calls_on who ics else calls_on who ics.
Proof. reflexivity. Qed.

Lemma interleaved_represents ics : ∀ σ a b xs os lim off xs' os' lim' off',
  represents σ a xs os lim off → represents σ b xs' os' lim' off' →
  separate σ a b →
  ∃ σ', interleaved a b ics σ = Some ((), σ')
        ∧ represents σ' a (xs ++ leaves_of (calls_on true ics))
            (os ++ orders_of (calls_on true ics))
            (last_limit lim (calls_on true ics))
            (last_offset off (calls_on true ics))
        ∧ represents σ' b (xs' ++ leaves_of (calls_on false ics))
            (os' ++ orders_of (calls_on false ics))
            (last_limit lim' (calls_on false ics))
            (last_offset off' (calls_on false ics)).
Proof.
  induction ics as [|[who c] ics IH];
    intros σ a b xs os lim off xs' os' lim' off' Ha Hb Hsep.
  - exists σ. simpl. rewrite !app_nil_r. done.
  - destruct who.
    + destruct (call_separate _ _ _ c _ _ _ _ _ _ _ _ Ha Hb Hsep)
        as (σ1 & Hc & Ha1 & Hb1 & Hsep1).
      destruct (IH _ _ _ _ _ _ _ _ _ _ _ Ha1 Hb1 Hsep1) as (σ2 & Hcs & Ha2 & Hb2).
      exists σ2. split; [simpl; unfold bind; by rewrite Hc|].
      rewrite !calls_on_cons. cbn [Bool.eqb].
      rewrite leaves_of_cons, orders_of_cons, last_limit_cons, last_offset_cons.
      by rewrite !app_assoc.
    + assert (Hsym : separate σ b a) by (intros l Hlb Hla; by apply (Hsep l)).
      destruct (call_separate _ _ _ c _ _ _ _ _ _ _ _ Hb Ha Hsym)
        as (σ1 & Hc & Hb1 & Ha1 & Hsym1).
      assert (Hsep1 : separate σ1 a b) by (intros l Hla Hlb; by apply (Hsym1 l)).
      destruct (IH _ _ _ _ _ _ _ _ _ _ _ Ha1 Hb1 Hsep1) as (σ2 & Hcs & Ha2 & Hb2).
      exists σ2. split; [simpl; unfold bind; by rewrite Hc|].
      rewrite !calls_on_cons. cbn [Bool.eqb].
      rewrite leaves_of_cons, orders_of_cons, last_limit_cons, last_offset_cons.
      by rewrite !app_assoc.
Qed.

(** X13.  Builders do not share state.  For two builders and any
    interleaving of calls on them, the descriptor of each builder is the one
    that its own calls ask for: no call on one builder changes what the
    other has built. *)
Theorem builders_are_independent (ics : list (bool * Call)) σ :
  ∃ a b σ',
    (do a <- QueryBuilder.new;
     do b <- QueryBuilder.new;
     interleaved a b ics;; ret (a, b)) σ = Some ((a, b), σ')
    ∧ ∀ depth,
        read_descriptor (S (S depth)) σ' (QueryBuilder.query a)
        = Some (descriptor_of (calls_on true ics))
        ∧ read_descriptor (S (S depth)) σ' (QueryBuilder.query b)
          = Some (descriptor_of (calls_on false ics)).
Proof.
  set (empty := QueryObject (mkQuery None None None None)).
  set (a := QueryBuilder.mk (length σ)).
  set (b := QueryBuilder.mk (length (σ ++ [empty]))).
  set (σ2 := (σ ++ [empty]) ++ [empty]).
  assert (Hqa : σ2 !! QueryBuilder.query a = Some empty)
    by apply lookup_alloc_old, lookup_alloc_new.
  assert (Hqb : σ2 !! QueryBuilder.query b = Some empty)
    by apply lookup_alloc_new.
  assert (Ha : represents σ2 a [] [] None None) by (by exists (mkQuery None None None None)).
  assert (Hb : represents σ2 b [] [] None None) by (by exists (mkQuery None None None None)).
  assert (Hsep : separate σ2 a b).
  { intros l. rewrite (anchors_eq _ _ _ Hqa), (anchors_eq _ _ _ Hqb). simpl.
    rewrite !list_elem_of_singleton. intros -> [=]. rewrite List.length_app in *.
    simpl in *. lia. }
  destruct (interleaved_represents ics _ _ _ _ _ _ _ _ _ _ _ Ha Hb Hsep)
    as (σ' & Hrun & Ha' & Hb').
  exists a, b, σ'. split.
  - unfold bind at 1 2. simpl. fold empty. fold a. unfold bind at 1. simpl.
    fold b. fold σ2. unfold bind. by rewrite Hrun.
  - intros depth. split; by apply read_represented.
Qed.

(** Two builders used in turn: each has its own filter and its own limit. *)
Example two_builders_example :
  (do a <- QueryBuilder.new;
   do b <- QueryBuilder.new;
   interleaved a b
     [ (true, Where "public" "EQUAL" (VBoolean true));
       (false, Where "uid" "EQUAL" (VString "u1"));
       (false, Limit (VNumber (of_Z 5)));
       (true, Where "likes" "GREATER_THAN" (VNumber (of_Z 3)));
       (false, Where "name" "EQUAL" (VString "Verbs")) ];;
   λ σ, Some ((read_descriptor 2 σ (QueryBuilder.query a),
               read_descriptor 2 σ (QueryBuilder.query b)), σ)) []
  = Some ((Some (mkDescriptor
                   (Some (CompositeFilter "AND"
                            [ FieldFilter "public" "EQUAL" (BooleanValue true);
                              FieldFilter "likes" "GREATER_THAN" (IntegerValue "3") ]))
                   None None None),
           Some (mkDescriptor
                   (Some (CompositeFilter "AND"
                            [ FieldFilter "uid" "EQUAL" (StringValue "u1");
                              FieldFilter "name" "EQUAL" (StringValue "Verbs") ]))
                   None (Some (VNumber (of_Z 5))) None)),
          [ QueryObject (mkQuery (Some 5) None None None);
            QueryObject (mkQuery (Some 7) None (Some (VNumber (of_Z 5))) None);
            FieldFilterObject "public" "EQUAL" (BooleanValue true);
            FieldFilterObject "uid" "EQUAL" (StringValue "u1");
            FieldFilterObject "likes" "GREATER_THAN" (IntegerValue "3");
            CompositeFilterObject "AND" [2; 4];
            FieldFilterObject "name" "EQUAL" (StringValue "Verbs");
            CompositeFilterObject "AND" [3; 6] ]).
Proof. reflexivity. Qed.

End Independence.
